(** * fix_markdown.py: a shallow embedding and its properties

    The program reads one markdown file, reformats it with
    [fix_markdown_formatting] and writes it back.  A Python [str] is a
    sequence of Unicode code points: a character is modelled as its code
    point (an [N]) and a string as a list of characters.  The list of
    lines, the cursor [i] and the list [fixed_lines] the loop appends to
    are modelled as the code has them. *)

From Stdlib Require Import String Ascii List NArith Arith Bool Lia.
Import ListNotations.

(** ** Characters and strings *)

Module Py.

Definition char := N.
Definition str := list char.

(** A literal of the source, read character by character. *)
Definition lit (s : string) : str :=
  List.map N_of_ascii (list_ascii_of_string s).

Definition NL : char := 10%N.
Definition HASH : char := 35%N.
Definition COLON : char := 58%N.
Definition BACKTICK : char := 96%N.
Definition DASH : char := 45%N.
Definition SPACE : char := 32%N.

(** [str.isspace] on one character, which is also what [\s] matches in a
    [str] pattern: the ASCII white space 9..13, 28..31 and 32, and the
    Unicode white space beyond. *)
Definition isspace (c : char) : bool :=
  ((9 <=? c) && (c <=? 13) || (28 <=? c) && (c <=? 32)
   || (c =? 133) || (c =? 160) || (c =? 5760)
   || (8192 <=? c) && (c <=? 8202)
   || (c =? 8232) || (c =? 8233) || (c =? 8239) || (c =? 8287)
   || (c =? 12288))%N.

(** [s.lstrip()], [s.rstrip()] and [s.strip()]. *)
Fixpoint lstrip (s : str) : str :=
  match s with
  | c :: r => if isspace c then lstrip r else s
  | [] => []
  end.

Definition rstrip (s : str) : str := rev (lstrip (rev s)).

Definition strip (s : str) : str := rstrip (lstrip s).

(** [line.strip() == ''] and [line.strip() != '']. *)
Definition is_blank (line : str) : bool :=
  match strip line with [] => true | _ :: _ => false end.

Definition non_blank (line : str) : bool := negb (is_blank line).

(** [content.split('\n')]: never the empty list. *)
Fixpoint split_nl (s : str) : list str :=
  match s with
  | [] => [[]]
  | c :: r =>
      if (c =? NL)%N then [] :: split_nl r
      else match split_nl r with
           | l :: ls => (c :: l) :: ls
           | [] => [[c]]
           end
  end.

(** ['\n'.join(result)]. *)
Fixpoint join_nl (ls : list str) : str :=
  match ls with
  | [] => []
  | [l] => l
  | l :: rest => l ++ NL :: join_nl rest
  end.

(** [s.startswith(p)]. *)
Fixpoint starts_with (p s : str) : bool :=
  match p, s with
  | [], _ => true
  | _ :: _, [] => false
  | a :: p', b :: s' => (a =? b)%N && starts_with p' s'
  end.

End Py.

Import Py.

(** ** The patterns of the source *)

(** [re.match(r'^#{1,6}\s', line)]: some [k] between 1 and 6 such that
    the first [k] characters are [#] and the next one is white space.  The
    greedy [#{1,6}] tries 6 first and backs off down to 1. *)
Definition hashes_then_space (k : nat) (line : str) : bool :=
  forallb (N.eqb HASH) (firstn k line)
  && (length (firstn k line) =? k)
  && match nth_error line k with
     | Some c => isspace c
     | None => false
     end.

Definition is_heading (line : str) : bool :=
  existsb (fun k => hashes_then_space k line) [6; 5; 4; 3; 2; 1].

(** [re.match(r'^```', line)]. *)
Definition is_fence (line : str) : bool :=
  starts_with [BACKTICK; BACKTICK; BACKTICK] line.

(** [re.match(r'^```\s*$', line)]: three backticks and then white space
    only, up to the end of the line (a final newline, which [$] also
    accepts, is white space too). *)
Definition is_close_fence (line : str) : bool :=
  is_fence line && forallb isspace (skipn 3 line).

(** [re.match(r'^- ', line)]. *)
Definition is_list_item (line : str) : bool :=
  starts_with [DASH; SPACE] line.

(** [re.match(r'^  ', line)]. *)
Definition is_indented (line : str) : bool :=
  starts_with [SPACE; SPACE] line.

(** [re.sub(r':$', '', line)]: without [re.MULTILINE], [$] matches at the
    end of the string and just before a newline that ends the string, so
    the pattern matches one colon at most: the last character, or the one
    before a final newline. *)
Definition sub_colon (line : str) : str :=
  match rev line with
  | c :: r =>
      if (c =? COLON)%N then rev r
      else match r with
           | d :: r' =>
               if (c =? NL)%N && (d =? COLON)%N then rev (c :: r') else line
           | [] => line
           end
  | [] => line
  end.

(** ** The formatter *)

(** [fixed_lines.insert(-1, x)]: before the last element; at the front of
    an empty list. *)
Fixpoint insert_before_last (x : str) (l : list str) : list str :=
  match l with
  | [] => [x]
  | [y] => [x; y]
  | y :: r => y :: insert_before_last x r
  end.

(** [lines[k]] under a bounds check of the source. *)
Definition line_at (lines : list str) (k : nat) : str := nth k lines [].

(** [while j < len(lines) and not re.match(r'^```\s*$', lines[j]): j += 1],
    run over the lines from index [j] on. *)
Fixpoint scan_close (from_j : list str) (j : nat) : nat :=
  match from_j with
  | [] => j
  | l :: r => if is_close_fence l then j else scan_close r (S j)
  end.

(** [for k in range(i+1, j+1): if k < len(lines): fixed_lines.append(lines[k])]. *)
Definition copy_block (lines : list str) (i j : nat) (fixed_lines : list str)
  : list str :=
  fold_left
    (fun fl k => if k <? length lines then fl ++ [line_at lines k] else fl)
    (seq (i + 1) (j - i)) fixed_lines.

(** [while j+1 < len(lines) and (re.match(r'^- ', lines[j+1]) or
    re.match(r'^  ', lines[j+1])): j += 1; fixed_lines.append(lines[j])],
    run over the lines from index [j+1] on. *)
Fixpoint scan_list (after_j : list str) (j : nat) (fixed_lines : list str)
  : nat * list str :=
  match after_j with
  | [] => (j, fixed_lines)
  | l :: r =>
      if is_list_item l || is_indented l
      then scan_list r (S j) (fixed_lines ++ [l])
      else (j, fixed_lines)
  end.

(** One iteration of the main loop, from the cursor [i] and the lines
    appended so far to the next cursor and the lines appended then. *)
Definition loop_body (lines : list str) (i : nat) (fixed_lines : list str)
  : nat * list str :=
  let len := length lines in
  let line := line_at lines i in
  (* blank line before headings *)
  let fixed_lines :=
    if is_heading line && (0 <? i) && non_blank (line_at lines (i - 1))
    then fixed_lines ++ [[]] else fixed_lines in
  (* trailing punctuation of headings *)
  let line := if is_heading line then sub_colon line else line in
  let fixed_lines := fixed_lines ++ [line] in
  (* blank line after headings *)
  let fixed_lines :=
    if is_heading line && (i + 1 <? len) && non_blank (line_at lines (i + 1))
    then fixed_lines ++ [[]] else fixed_lines in
  (* code blocks *)
  let '(i, fixed_lines) :=
    if is_fence line then
      let fixed_lines :=
        if (0 <? i) && non_blank (line_at lines (i - 1))
        then insert_before_last [] fixed_lines else fixed_lines in
      let j := scan_close (skipn (i + 1) lines) (i + 1) in
      let fixed_lines := copy_block lines i j fixed_lines in
      let fixed_lines :=
        if (j + 1 <? len) && non_blank (line_at lines (j + 1))
        then fixed_lines ++ [[]] else fixed_lines in
      (j, fixed_lines)
    else (i, fixed_lines) in
  (* lists *)
  let '(i, fixed_lines) :=
    if is_list_item line then
      let fixed_lines :=
        if (0 <? i) && negb (is_list_item (line_at lines (i - 1)))
           && non_blank (line_at lines (i - 1))
        then insert_before_last [] fixed_lines else fixed_lines in
      let '(j, fixed_lines) := scan_list (skipn (i + 1) lines) i fixed_lines in
      let fixed_lines :=
        if (j + 1 <? len) && non_blank (line_at lines (j + 1))
        then fixed_lines ++ [[]] else fixed_lines in
      (j, fixed_lines)
    else (i, fixed_lines) in
  (i + 1, fixed_lines).

(** [while i < len(lines): ...].  Every iteration moves the cursor
    forward, so [length lines] iterations are enough ([main_loop_total]);
    [None] stands for a loop that is still running when the fuel is gone. *)
Fixpoint main_loop (fuel : nat) (lines : list str) (i : nat)
  (fixed_lines : list str) : option (list str) :=
  if length lines <=? i then Some fixed_lines
  else match fuel with
       | 0 => None
       | S fuel' =>
           let '(i', fixed_lines') := loop_body lines i fixed_lines in
           main_loop fuel' lines i' fixed_lines'
       end.

(** The second loop: [prev_empty] and [result], line by line. *)
Fixpoint collapse_blank (prev_empty : bool) (fixed_lines : list str)
  (result : list str) : list str :=
  match fixed_lines with
  | [] => result
  | line :: rest =>
      if is_blank line
      then collapse_blank true rest
             (if negb prev_empty then result ++ [line] else result)
      else collapse_blank false rest (result ++ [line])
  end.

(** The lines the function joins: [result] at the [return]. *)
Definition format_lines (lines : list str) : list str :=
  match main_loop (length lines) lines 0 [] with
  | Some fixed_lines => collapse_blank false fixed_lines []
  | None => []
  end.

Definition fix_markdown_formatting (content : str) : str :=
  join_nl (format_lines (split_nl content)).

(** Documents are written line by line below. *)
Definition doc (ls : list string) : str := join_nl (List.map lit ls).

Example example_1 :
  fix_markdown_formatting (doc ["# Title:"; "Some text"]%string)
  = doc ["# Title"; ""; "Some text"]%string.
Proof. reflexivity. Qed.

Example example_3 :
  fix_markdown_formatting (doc ["Para"; "- item1"; "- item2"; "More"]%string)
  = doc ["Para"; ""; "- item1"; "- item2"; ""; "More"]%string.
Proof. reflexivity. Qed.

(** ** The program

    The [__main__] block: the file system, the standard output and the way
    the process ends are the state; an exception nobody catches ends the
    run.  [files w p] is the text [f.read()] returns for the file [p],
    [None] when opening or decoding it fails. *)

Module IO.

Definition path := str.

Inductive exn : Type :=
| SystemExit (code : nat)
| OSError (p : path).

Inductive file_op : Type :=
| OpenRead (p : path)
| OpenWrite (p : path).

Record world : Type := {
  files : path -> option str;
  writable : path -> bool;
  stdout : list str;
  file_ops : list file_op
}.

(** State and exceptions. *)
Definition M (A : Type) : Type := world -> (A + exn) * world.

Definition ret {A : Type} (a : A) : M A := fun w => (inl a, w).

Definition bind {A B : Type} (c : M A) (k : A -> M B) : M B :=
  fun w =>
    match c w with
    | (inl a, w') => k a w'
    | (inr e, w') => (inr e, w')
    end.

Definition raise {A : Type} (e : exn) : M A := fun w => (inr e, w).

Definition str_eqb (a b : str) : bool :=
  if list_eq_dec N.eq_dec a b then true else false.

(** [print(s)]. *)
Definition print (s : str) : M unit :=
  fun w =>
    (inl tt,
     {| files := files w; writable := writable w;
        stdout := stdout w ++ [s]; file_ops := file_ops w |}).

(** [sys.exit(code)]. *)
Definition sys_exit {A : Type} (code : nat) : M A := raise (SystemExit code).

(** [with open(p, 'r', encoding='utf-8') as f: f.read()]. *)
Definition read_file (p : path) : M str :=
  fun w =>
    let w' := {| files := files w; writable := writable w;
                 stdout := stdout w; file_ops := file_ops w ++ [OpenRead p] |} in
    match files w p with
    | Some text => (inl text, w')
    | None => (inr (OSError p), w')
    end.

(** [with open(p, 'w', encoding='utf-8') as f: f.write(text)]. *)
Definition write_file (p : path) (text : str) : M unit :=
  fun w =>
    if writable w p then
      (inl tt,
       {| files := fun q => if str_eqb q p then Some text else files w q;
          writable := writable w; stdout := stdout w;
          file_ops := file_ops w ++ [OpenWrite p] |})
    else
      (inr (OSError p),
       {| files := files w; writable := writable w; stdout := stdout w;
          file_ops := file_ops w ++ [OpenWrite p] |}).

(** The exit status of the process. *)
Definition exit_status (r : unit + exn) : nat :=
  match r with
  | inl _ => 0
  | inr (SystemExit code) => code
  | inr (OSError _) => 1
  end.

End IO.

Import IO.

Notation "x <- c ;; k" := (bind c (fun x => k))
  (at level 61, c at next level, right associativity).
Notation "c ;;; k" := (bind c (fun _ => k))
  (at level 61, right associativity).

Definition usage : str := lit "Usage: python3 fix_markdown.py <file>".

(** [if __name__ == '__main__': ...] with [sys.argv = argv]. *)
Definition main (argv : list str) : M unit :=
  if negb (length argv =? 2) then
    print usage ;;; sys_exit 1
  else
    let filename := nth 1 argv [] in
    content <- read_file filename ;;
    let fixed_content := fix_markdown_formatting content in
    write_file filename fixed_content ;;;
    print (lit "Fixed markdown formatting in " ++ filename).

(** ** Strings: blank lines, splitting and joining *)

Lemma lstrip_nil_iff (s : str) : lstrip s = [] <-> forallb isspace s = true.
Proof.
  induction s as [|c r IH]; simpl.
  - tauto.
  - destruct (isspace c) eqn:Hc; simpl.
    + exact IH.
    + split; discriminate.
Qed.

Lemma lstrip_all_space (s : str) : forallb isspace (lstrip s) = forallb isspace s.
Proof.
  induction s as [|c r IH]; simpl; trivial.
  destruct (isspace c) eqn:Hc; simpl; [exact IH | now rewrite Hc].
Qed.

Lemma forallb_rev (A : Type) (f : A -> bool) (l : list A) :
  forallb f (rev l) = forallb f l.
Proof.
  induction l as [|a l IH]; simpl; trivial.
  rewrite forallb_app, IH. simpl. rewrite andb_true_r. apply andb_comm.
Qed.

(** [line.strip() == ''] holds exactly of the lines made of white space. *)
Lemma is_blank_spec (line : str) : is_blank line = forallb isspace line.
Proof.
  unfold is_blank, strip, rstrip.
  destruct (forallb isspace line) eqn:H.
  - assert (Hl : lstrip line = []) by now apply lstrip_nil_iff.
    rewrite Hl. reflexivity.
  - destruct (rev (lstrip (rev (lstrip line)))) as [|c t] eqn:E; trivial.
    apply (f_equal (@rev char)) in E. rewrite rev_involutive in E. simpl in E.
    apply lstrip_nil_iff in E.
    rewrite forallb_rev, lstrip_all_space in E. congruence.
Qed.

Definition no_newline (line : str) : Prop := ~ In NL line.

Lemma split_nl_not_nil (s : str) : split_nl s <> [].
Proof.
  destruct s as [|c r]; simpl; [discriminate|].
  destruct (c =? NL)%N; [discriminate|].
  destruct (split_nl r); discriminate.
Qed.

Lemma split_nl_no_newline (s : str) : Forall no_newline (split_nl s).
Proof.
  induction s as [|c r IH]; simpl.
  - constructor; [intros []|constructor].
  - destruct (N.eqb_spec c NL) as [->|Hc].
    + constructor; [intros []|exact IH].
    + destruct (split_nl r) as [|l ls]; [repeat constructor; intros [H|[]]; congruence|].
      inversion IH as [|? ? Hl Hls]; subst.
      constructor; [|exact Hls].
      intros [H|H]; [congruence|now apply Hl].
Qed.

(** Joining the lines of a split gives the string back. *)
Lemma join_split (s : str) : join_nl (split_nl s) = s.
Proof.
  induction s as [|c r IH]; simpl; trivial.
  destruct (N.eqb_spec c NL) as [->|Hc].
  - simpl. rewrite IH.
    destruct (split_nl r) eqn:E; [now apply split_nl_not_nil in E|reflexivity].
  - destruct (split_nl r) as [|l ls] eqn:E; [now apply split_nl_not_nil in E|].
    simpl in *. destruct ls; simpl in *; now rewrite IH.
Qed.

Lemma split_nl_app_no_newline (l : str) :
  no_newline l -> forall t, split_nl (l ++ NL :: t) = l :: split_nl t.
Proof.
  induction l as [|c r IH]; intros Hl t; simpl.
  - reflexivity.
  - destruct (N.eqb_spec c NL) as [->|Hc]; [exfalso; apply Hl; now left|].
    rewrite IH; [reflexivity|]. intros H; apply Hl; now right.
Qed.

Lemma split_nl_no_newline_id (l : str) : no_newline l -> split_nl l = [l].
Proof.
  induction l as [|c r IH]; intros Hl; simpl; trivial.
  destruct (N.eqb_spec c NL) as [->|Hc]; [exfalso; apply Hl; now left|].
  rewrite IH; [reflexivity|]. intros H; apply Hl; now right.
Qed.

(** Splitting the join of lines without newlines gives the lines back. *)
Lemma split_join (ls : list str) :
  ls <> [] -> Forall no_newline ls -> split_nl (join_nl ls) = ls.
Proof.
  induction ls as [|l rest IH]; intros Hne Hall; [congruence|].
  inversion Hall as [|? ? Hl Hrest]; subst.
  destruct rest as [|l' rest'].
  - simpl. now apply split_nl_no_newline_id.
  - change (join_nl (l :: l' :: rest')) with (l ++ NL :: join_nl (l' :: rest')).
    rewrite split_nl_app_no_newline by assumption.
    rewrite IH; [reflexivity|discriminate|assumption].
Qed.

(** ** The patterns: what a match says about the line *)

Lemma hashes_then_space_spec (k : nat) (line : str) :
  hashes_then_space k line = true
  <-> exists c t, line = repeat HASH k ++ c :: t /\ isspace c = true.
Proof.
  unfold hashes_then_space. revert line.
  induction k as [|k IH]; intros line.
  - destruct line as [|c t]; simpl.
    + split; [discriminate|]. intros (c & t & E & _). discriminate.
    + split.
      * intros H. now exists c, t.
      * intros (c' & t' & E & Hc). injection E as -> ->. exact Hc.
  - destruct line as [|h t]; cbn [forallb firstn nth_error length repeat app Nat.eqb].
    + split; [discriminate|]. intros (c & t & E & _). discriminate.
    + specialize (IH t).
      destruct (N.eqb_spec HASH h) as [<-|Hh]; cbn [andb].
      * rewrite IH. split; intros (c & t' & E & Hc); exists c, t'.
        -- split; [|exact Hc]. now rewrite E.
        -- split; [|exact Hc]. congruence.
      * split; [discriminate|]. intros (c & t' & E & _). congruence.
Qed.

Lemma is_heading_spec (line : str) :
  is_heading line = true
  <-> exists k c t,
        1 <= k <= 6 /\ line = repeat HASH k ++ c :: t /\ isspace c = true.
Proof.
  unfold is_heading. rewrite existsb_exists. split.
  - intros (k & Hk & H). apply hashes_then_space_spec in H.
    destruct H as (c & t & E & Hc). exists k, c, t.
    split; [|now split].
    simpl in Hk. lia.
  - intros (k & c & t & Hk & E & Hc). exists k. split.
    + simpl. lia.
    + apply hashes_then_space_spec. now exists c, t.
Qed.

Lemma is_heading_hash (line : str) :
  is_heading line = true -> exists t, line = HASH :: t.
Proof.
  intros H. apply is_heading_spec in H.
  destruct H as (k & c & t & Hk & -> & _).
  destruct k as [|k]; [lia|]. simpl. eauto.
Qed.

Lemma is_heading_non_blank (line : str) :
  is_heading line = true -> non_blank line = true.
Proof.
  intros H. destruct (is_heading_hash _ H) as (t & ->).
  unfold non_blank. now rewrite is_blank_spec.
Qed.

Lemma is_heading_not_fence (line : str) :
  is_heading line = true -> is_fence line = false.
Proof. intros H. now destruct (is_heading_hash _ H) as (t & ->). Qed.

Lemma is_heading_not_list_item (line : str) :
  is_heading line = true -> is_list_item line = false.
Proof. intros H. now destruct (is_heading_hash _ H) as (t & ->). Qed.

Lemma starts_with_cons (a : char) (p s : str) :
  starts_with (a :: p) s = true ->
  exists t, s = a :: t /\ starts_with p t = true.
Proof.
  destruct s as [|b t]; cbn [starts_with]; [discriminate|].
  destruct (N.eqb_spec a b) as [<-|]; [|discriminate].
  intros H. now exists t.
Qed.

Lemma is_fence_not_list_item (line : str) :
  is_fence line = true -> is_list_item line = false.
Proof.
  intros H. apply starts_with_cons in H. now destruct H as (t & -> & _).
Qed.

Lemma is_fence_non_blank (line : str) :
  is_fence line = true -> non_blank line = true.
Proof.
  intros H. apply starts_with_cons in H. destruct H as (t & -> & _).
  unfold non_blank. now rewrite is_blank_spec.
Qed.

Lemma is_list_item_non_blank (line : str) :
  is_list_item line = true -> non_blank line = true.
Proof.
  intros H. apply starts_with_cons in H. destruct H as (t & -> & _).
  unfold non_blank. now rewrite is_blank_spec.
Qed.

Lemma is_close_fence_is_fence (line : str) :
  is_close_fence line = true -> is_fence line = true.
Proof. unfold is_close_fence. intros H. now apply andb_prop in H. Qed.

(** What [re.sub(r':$', '', line)] does: nothing, or one colon taken out
    of the end of the line. *)
Lemma sub_colon_cases (line : str) :
  sub_colon line = line
  \/ (exists a, line = a ++ [COLON] /\ sub_colon line = a)
  \/ (exists a, line = a ++ [COLON; NL] /\ sub_colon line = a ++ [NL]).
Proof.
  unfold sub_colon.
  destruct (rev line) as [|c r] eqn:E; [now left|].
  apply (f_equal (@rev char)) in E. rewrite rev_involutive in E. simpl in E.
  destruct (N.eqb_spec c COLON) as [->|Hc].
  - right; left. now exists (rev r).
  - destruct r as [|d r']; [now left|].
    destruct (N.eqb_spec c NL) as [->|Hn]; [|now left].
    destruct (N.eqb_spec d COLON) as [->|Hd]; [|now left].
    right; right. exists (rev r'). simpl in *.
    rewrite <- app_assoc in E. simpl in E. now split.
Qed.

Lemma sub_colon_ends_colon (a : str) : sub_colon (a ++ [COLON]) = a.
Proof. unfold sub_colon. rewrite rev_app_distr. simpl. apply rev_involutive. Qed.

Lemma prefix_before (A : Type) (x : A) (p t a b : list A) :
  ~ In x p -> p ++ t = a ++ x :: b -> exists a', a = p ++ a' /\ t = a' ++ x :: b.
Proof.
  revert a. induction p as [|y p IH]; intros a Hx E; simpl in *.
  - now exists a.
  - destruct a as [|z a]; simpl in E.
    + injection E as <- _. exfalso. apply Hx. now left.
    + injection E as <- E. destruct (IH a) as (a' & -> & ->); [tauto|exact E|].
      now exists a'.
Qed.

(** The removed colon is never part of what made the line a heading. *)
Lemma sub_colon_keeps_prefix (p t : str) :
  ~ In COLON p -> exists t', sub_colon (p ++ t) = p ++ t'.
Proof.
  intros Hp.
  destruct (sub_colon_cases (p ++ t)) as [E|[(a & E & ->)|(a & E & ->)]].
  - exists t. exact E.
  - apply prefix_before in E; [|exact Hp]. destruct E as (a' & -> & _). now exists a'.
  - change [COLON; NL] with (COLON :: [NL]) in E.
    apply prefix_before in E; [|exact Hp]. destruct E as (a' & -> & _).
    exists (a' ++ [NL]). now rewrite app_assoc.
Qed.

Lemma isspace_colon : isspace COLON = false.
Proof. reflexivity. Qed.

Lemma is_heading_sub_colon (line : str) :
  is_heading line = true -> is_heading (sub_colon line) = true.
Proof.
  intros H. apply is_heading_spec in H.
  destruct H as (k & c & t & Hk & -> & Hc).
  destruct (@sub_colon_keeps_prefix (repeat HASH k ++ [c]) t) as (t' & E).
  - intros Hin. apply in_app_or in Hin. destruct Hin as [Hin|[->|[]]].
    + apply repeat_spec in Hin. discriminate.
    + rewrite isspace_colon in Hc. discriminate.
  - rewrite <- !app_assoc in E. cbn [app] in E. rewrite E.
    apply is_heading_spec. exists k, c, t'. auto.
Qed.

Lemma sub_colon_no_newline (line : str) :
  no_newline line -> no_newline (sub_colon line).
Proof.
  unfold no_newline. intros Hl.
  destruct (sub_colon_cases line) as [->|[(a & E & ->)|(a & E & ->)]]; trivial.
  - intros H. apply Hl. rewrite E. apply in_or_app. now left.
  - exfalso. apply Hl. rewrite E. apply in_or_app. right. right. now left.
Qed.

(** ** The main loop, line by line

    The loop is a cursor over [lines] that jumps over code blocks and
    lists.  [run] tells the same story one line at a time: the line is
    read in the main loop ([Main]), inside a code block ([InCode]) or
    inside a list ([InList]), [prev] is the source line before it and the
    rest of the list is what follows.  [main_loop_run] shows that the
    loop of the source computes [run Main None lines]. *)

Inductive mode : Set := Main | InCode | InList.

Definition blank_if (b : bool) : list str := if b then [[]] else [].

Definition prev_test (f : str -> bool) (prev : option str) : bool :=
  match prev with Some p => f p | None => false end.

Definition next_test (f : str -> bool) (rest : list str) : bool :=
  match rest with n :: _ => f n | [] => false end.

Definition is_continuation (line : str) : bool :=
  is_list_item line || is_indented line.

Definition list_start_gap (p : str) : bool :=
  negb (is_list_item p) && non_blank p.

Fixpoint run (m : mode) (prev : option str) (ls : list str) : list str :=
  match ls with
  | [] => []
  | l :: rest =>
      match m with
      | InCode =>
          l :: (if is_close_fence l
                then blank_if (next_test non_blank rest) ++ run Main (Some l) rest
                else run InCode (Some l) rest)
      | InList =>
          l :: (if next_test is_continuation rest
                then run InList (Some l) rest
                else blank_if (next_test non_blank rest) ++ run Main (Some l) rest)
      | Main =>
          if is_heading l then
            blank_if (prev_test non_blank prev)
            ++ sub_colon l
            :: blank_if (next_test non_blank rest) ++ run Main (Some l) rest
          else if is_fence l then
            blank_if (prev_test non_blank prev) ++ l :: run InCode (Some l) rest
          else if is_list_item l then
            blank_if (prev_test list_start_gap prev)
            ++ l
            :: (if next_test is_continuation rest
                then run InList (Some l) rest
                else blank_if (next_test non_blank rest) ++ run Main (Some l) rest)
          else l :: run Main (Some l) rest
      end
  end.

(** The second loop as a function of the lines still to come. *)
Fixpoint collapse (prev_empty : bool) (ls : list str) : list str :=
  match ls with
  | [] => []
  | l :: rest =>
      if is_blank l
      then (if prev_empty then [] else [l]) ++ collapse true rest
      else l :: collapse false rest
  end.

Lemma collapse_blank_collapse (ls : list str) :
  forall b result, collapse_blank b ls result = result ++ collapse b ls.
Proof.
  induction ls as [|l rest IH]; intros b result; simpl.
  - now rewrite app_nil_r.
  - destruct (is_blank l); rewrite IH.
    + destruct b; simpl; [reflexivity|now rewrite <- app_assoc].
    + now rewrite <- app_assoc.
Qed.

(** The source line before the cursor, after the lines [seen]. *)
Definition prev_of (prev : option str) (seen : list str) : option str :=
  fold_left (fun _ x => Some x) seen prev.

Lemma prev_of_app (prev : option str) (a b : list str) :
  prev_of prev (a ++ b) = prev_of (prev_of prev a) b.
Proof. apply fold_left_app. Qed.

Lemma prev_of_snoc (prev : option str) (a : list str) (x : str) :
  prev_of prev (a ++ [x]) = Some x.
Proof. now rewrite prev_of_app. Qed.

Lemma line_at_app_r (pre rest : list str) (k : nat) :
  line_at (pre ++ rest) (length pre + k) = nth k rest [].
Proof.
  unfold line_at. rewrite app_nth2 by lia. f_equal. lia.
Qed.

Lemma line_at_cursor (pre rest : list str) (l : str) :
  line_at (pre ++ l :: rest) (length pre) = l.
Proof.
  replace (length pre) with (length pre + 0) by lia.
  now rewrite line_at_app_r.
Qed.

(** [i > 0 and f(lines[i-1])] is a test on the line before the cursor. *)
Lemma prev_test_cursor (f : str -> bool) (pre rest : list str) :
  (0 <? length pre) && f (line_at (pre ++ rest) (length pre - 1))
  = prev_test f (prev_of None pre).
Proof.
  destruct pre as [|x pre] using rev_ind; [reflexivity|].
  rewrite prev_of_snoc, length_app. simpl.
  replace (length pre + 1 - 1) with (length pre) by lia.
  rewrite <- app_assoc. simpl. rewrite line_at_cursor.
  destruct (Nat.ltb_spec 0 (length pre + 1)); [reflexivity|lia].
Qed.

(** [k+1 < len(lines) and f(lines[k+1])] is a test on the line after. *)
Lemma next_test_cursor (f : str -> bool) (pre rest : list str) (l : str) :
  (length pre + 1 <? length (pre ++ l :: rest))
  && f (line_at (pre ++ l :: rest) (length pre + 1))
  = next_test f rest.
Proof.
  rewrite line_at_app_r, length_app. simpl.
  destruct rest as [|n rest]; simpl.
  - destruct (Nat.ltb_spec (length pre + 1) (length pre + 1)); [lia|reflexivity].
  - destruct (Nat.ltb_spec (length pre + 1) (length pre + S (S (length rest))));
      [reflexivity|lia].
Qed.

Lemma skipn_cursor (pre rest : list str) (l : str) :
  skipn (length pre + 1) (pre ++ l :: rest) = rest.
Proof.
  replace (pre ++ l :: rest) with ((pre ++ [l]) ++ rest)
    by now rewrite <- app_assoc.
  replace (length pre + 1) with (length (pre ++ [l]))
    by (rewrite length_app; simpl; lia).
  rewrite skipn_app, skipn_all2, Nat.sub_diag by lia. reflexivity.
Qed.

Lemma insert_before_last_snoc (x y : str) (l : list str) :
  insert_before_last x (l ++ [y]) = l ++ [x; y].
Proof.
  induction l as [|z l IH]; [reflexivity|].
  simpl. rewrite IH. destruct (l ++ [y]) eqn:E; [|reflexivity].
  now destruct l.
Qed.

(** The lines of a code block before its closing fence. *)
Fixpoint open_lines (rest : list str) : nat :=
  match rest with
  | [] => 0
  | l :: r => if is_close_fence l then 0 else S (open_lines r)
  end.

Lemma scan_close_spec (rest : list str) (j : nat) :
  scan_close rest j = j + open_lines rest.
Proof.
  revert j. induction rest as [|l r IH]; intros j; simpl; [lia|].
  destruct (is_close_fence l); [lia|]. rewrite IH. lia.
Qed.

Lemma copy_from (pre rest : list str) (n a : nat) (fixed_lines : list str) :
  fold_left
    (fun fl k => if k <? length (pre ++ rest)
                 then fl ++ [line_at (pre ++ rest) k] else fl)
    (seq (length pre + a) n) fixed_lines
  = fixed_lines ++ firstn n (skipn a rest).
Proof.
  revert a fixed_lines. induction n as [|n IH]; intros a fixed_lines.
  - simpl. now rewrite app_nil_r.
  - cbn [seq fold_left]. replace (S (length pre + a)) with (length pre + S a) by lia.
    rewrite IH, line_at_app_r, length_app.
    destruct (Nat.ltb_spec (length pre + a) (length pre + length rest)) as [H|H].
    + assert (Ha : a < length rest) by lia.
      destruct (skipn a rest) as [|x t] eqn:E.
      * apply (f_equal (@length str)) in E. rewrite length_skipn in E.
        simpl in E. lia.
      * rewrite <- app_assoc. simpl. f_equal. f_equal.
        -- apply (f_equal (fun l => nth 0 l [])) in E. simpl in E.
           rewrite <- E, nth_skipn. f_equal. lia.
        -- f_equal. apply (f_equal (skipn 1)) in E. rewrite skipn_skipn in E.
           exact E.
    + rewrite !skipn_all2 by lia. now rewrite !firstn_nil.
Qed.

Lemma copy_block_spec (pre rest : list str) (l : str) (c : nat)
  (fixed_lines : list str) :
  copy_block (pre ++ l :: rest) (length pre) (length pre + 1 + c) fixed_lines
  = fixed_lines ++ firstn (S c) rest.
Proof.
  unfold copy_block.
  replace (length pre + 1 + c - length pre) with (S c) by lia.
  replace (pre ++ l :: rest) with ((pre ++ [l]) ++ rest)
    by now rewrite <- app_assoc.
  replace (length pre + 1) with (length (pre ++ [l]) + 0)
    by (rewrite length_app; simpl; lia).
  apply copy_from.
Qed.

Lemma run_in_code (rest : list str) (prev : option str) :
  run InCode prev rest
  = firstn (S (open_lines rest)) rest
    ++ blank_if (next_test non_blank (skipn (S (open_lines rest)) rest))
    ++ run Main (prev_of prev (firstn (S (open_lines rest)) rest))
         (skipn (S (open_lines rest)) rest).
Proof.
  revert prev. induction rest as [|l r IH]; intros prev; [reflexivity|].
  cbn [run open_lines]. destruct (is_close_fence l).
  - reflexivity.
  - rewrite IH. reflexivity.
Qed.

(** The lines a list takes after its first item, and what follows. *)
Fixpoint list_lines (rest : list str) : list str :=
  match rest with
  | [] => []
  | l :: r => if is_continuation l then l :: list_lines r else []
  end.

Fixpoint after_list (rest : list str) : list str :=
  match rest with
  | [] => []
  | l :: r => if is_continuation l then after_list r else rest
  end.

Lemma scan_list_spec (rest : list str) (j : nat) (fixed_lines : list str) :
  scan_list rest j fixed_lines
  = (j + length (list_lines rest), fixed_lines ++ list_lines rest).
Proof.
  revert j fixed_lines. induction rest as [|l r IH]; intros j fixed_lines; simpl.
  - now rewrite app_nil_r, Nat.add_0_r.
  - unfold is_continuation.
    destruct (is_list_item l || is_indented l); simpl.
    + rewrite IH, <- app_assoc. simpl. f_equal. lia.
    + now rewrite app_nil_r, Nat.add_0_r.
Qed.

Definition list_tail (prev : option str) (rest : list str) : list str :=
  if next_test is_continuation rest
  then run InList prev rest
  else blank_if (next_test non_blank rest) ++ run Main prev rest.

Lemma list_tail_spec (rest : list str) (prev : option str) :
  list_tail prev rest
  = list_lines rest
    ++ blank_if (next_test non_blank (after_list rest))
    ++ run Main (prev_of prev (list_lines rest)) (after_list rest).
Proof.
  revert prev. induction rest as [|l r IH]; intros prev; [reflexivity|].
  unfold list_tail. cbn [next_test list_lines after_list].
  destruct (is_continuation l) eqn:Hl; [|reflexivity].
  cbn [run]. fold (list_tail (Some l) r). rewrite IH. reflexivity.
Qed.

Lemma next_test_at (f : str -> bool) (pre rest : list str) (l : str) (k : nat) :
  (length pre + 1 + k <? length (pre ++ l :: rest))
  && f (line_at (pre ++ l :: rest) (length pre + 1 + k))
  = next_test f (skipn k rest).
Proof.
  replace (pre ++ l :: rest) with ((pre ++ [l]) ++ rest)
    by now rewrite <- app_assoc.
  replace (length pre + 1) with (length (pre ++ [l]))
    by (rewrite length_app; simpl; lia).
  generalize (pre ++ [l]) as P. intros P.
  rewrite line_at_app_r, (length_app P rest).
  destruct (skipn k rest) as [|x t] eqn:E.
  - apply (f_equal (@length str)) in E. rewrite length_skipn in E. simpl in E.
    destruct (Nat.ltb_spec (length P + k) (length P + length rest));
      [lia|reflexivity].
  - assert (Hk : k < length rest).
    { apply (f_equal (@length str)) in E. rewrite length_skipn in E.
      simpl in E. lia. }
    destruct (Nat.ltb_spec (length P + k) (length P + length rest)); [|lia].
    simpl. f_equal.
    apply (f_equal (fun l => nth 0 l [])) in E. simpl in E.
    rewrite <- E, nth_skipn. f_equal. lia.
Qed.

Lemma firstn_list_lines (rest : list str) :
  firstn (length (list_lines rest)) rest = list_lines rest.
Proof.
  induction rest as [|l r IH]; simpl; trivial.
  destruct (is_continuation l); simpl; [now rewrite IH|reflexivity].
Qed.

Lemma skipn_list_lines (rest : list str) :
  skipn (length (list_lines rest)) rest = after_list rest.
Proof.
  induction rest as [|l r IH]; simpl; trivial.
  destruct (is_continuation l); simpl; [now rewrite IH|reflexivity].
Qed.

(** The lines one iteration takes after the line under the cursor: the
    code block through its closing fence (one more than there are when the
    fence is never closed: the cursor then ends past the last line), or the
    rest of the list. *)
Definition taken (l : str) (rest : list str) : nat :=
  if is_heading l then 0
  else if is_fence l then S (open_lines rest)
  else if is_list_item l then length (list_lines rest)
  else 0.

(** One iteration of the loop at a cursor in range: it takes
    [1 + taken l rest] lines and appends what [run] emits for them. *)
Lemma loop_body_run (pre rest : list str) (l : str) (fixed_lines : list str) :
  exists out,
    loop_body (pre ++ l :: rest) (length pre) fixed_lines
    = (length pre + 1 + taken l rest, fixed_lines ++ out)
    /\ run Main (prev_of None pre) (l :: rest)
       = out ++ run Main (prev_of (Some l) (firstn (taken l rest) rest))
                  (skipn (taken l rest) rest).
Proof.
  unfold loop_body, taken. rewrite line_at_cursor.
  rewrite <- !andb_assoc.
  rewrite !prev_test_cursor, next_test_cursor, skipn_cursor.
  cbn [run].
  destruct (is_heading l) eqn:Hh.
  - rewrite (is_heading_sub_colon _ Hh).
    rewrite (is_heading_not_fence _ (is_heading_sub_colon _ Hh)).
    rewrite (is_heading_not_list_item _ (is_heading_sub_colon _ Hh)).
    exists (blank_if (prev_test non_blank (prev_of None pre))
            ++ sub_colon l :: blank_if (next_test non_blank rest)).
    split.
    + cbn [andb]. f_equal; [lia|].
      destruct (prev_test non_blank (prev_of None pre));
        destruct (next_test non_blank rest); cbn [blank_if app];
        rewrite <- ?app_assoc; reflexivity.
    + cbn [firstn skipn prev_of fold_left]. rewrite <- app_assoc. reflexivity.
  - rewrite Hh. cbn [andb]. destruct (is_fence l) eqn:Hf.
    + rewrite (is_fence_not_list_item _ Hf), scan_close_spec, copy_block_spec.
      replace (length pre + 1 + open_lines rest + 1)
        with (length pre + 1 + S (open_lines rest)) by lia.
      rewrite next_test_at.
      exists (blank_if (prev_test non_blank (prev_of None pre))
              ++ l :: firstn (S (open_lines rest)) rest
              ++ blank_if (next_test non_blank (skipn (S (open_lines rest)) rest))).
      split.
      * f_equal.
        destruct (prev_test non_blank (prev_of None pre));
          [rewrite insert_before_last_snoc|];
          destruct (next_test non_blank (skipn (S (open_lines rest)) rest));
          cbn [blank_if app]; rewrite <- ?app_assoc; cbn [app];
          rewrite ?app_nil_r; reflexivity.
      * rewrite run_in_code, <- !app_assoc. cbn [app]. rewrite <- !app_assoc.
        reflexivity.
    + destruct (is_list_item l) eqn:Hl.
      * rewrite <- !andb_assoc.
        fold (list_start_gap (line_at (pre ++ l :: rest) (length pre - 1))).
        rewrite prev_test_cursor, skipn_cursor, scan_list_spec.
        replace (length pre + length (list_lines rest) + 1)
          with (length pre + 1 + length (list_lines rest)) by lia.
        rewrite next_test_at, skipn_list_lines.
        exists (blank_if (prev_test list_start_gap (prev_of None pre))
                ++ l :: list_lines rest
                ++ blank_if (next_test non_blank (after_list rest))).
        split.
        -- f_equal.
           destruct (prev_test list_start_gap (prev_of None pre));
             [rewrite insert_before_last_snoc|];
             destruct (next_test non_blank (after_list rest));
             cbn [blank_if app]; rewrite <- ?app_assoc; cbn [app];
             rewrite ?app_nil_r; reflexivity.
        -- fold (list_tail (Some l) rest).
           rewrite list_tail_spec, firstn_list_lines, ?skipn_list_lines.
           rewrite <- !app_assoc. cbn [app]. rewrite <- !app_assoc.
           reflexivity.
      * exists [l]. split; [f_equal; lia|reflexivity].
Qed.

Lemma main_loop_done (fuel : nat) (lines : list str) (i : nat)
  (fixed_lines : list str) :
  length lines <= i -> main_loop fuel lines i fixed_lines = Some fixed_lines.
Proof.
  intros H. destruct fuel; simpl;
    destruct (Nat.leb_spec (length lines) i); trivial; lia.
Qed.

(** With fuel for the lines still to read, the loop of the source returns,
    and what it has appended is what [run] emits. *)
Lemma main_loop_run (fuel : nat) :
  forall pre rest fixed_lines,
    length rest <= fuel ->
    main_loop fuel (pre ++ rest) (length pre) fixed_lines
    = Some (fixed_lines ++ run Main (prev_of None pre) rest).
Proof.
  induction fuel as [|fuel IH]; intros pre rest fixed_lines Hfuel.
  - destruct rest; [|simpl in Hfuel; lia].
    rewrite main_loop_done by (rewrite length_app; simpl; lia).
    simpl. now rewrite app_nil_r.
  - destruct rest as [|l rest].
    + rewrite main_loop_done by (rewrite length_app; simpl; lia).
      simpl. now rewrite app_nil_r.
    + cbn [main_loop].
      destruct (Nat.leb_spec (length (pre ++ l :: rest)) (length pre)) as [H|_];
        [rewrite length_app in H; simpl in H; lia|].
      destruct (loop_body_run pre rest l fixed_lines) as (out & -> & ->).
      rewrite app_assoc. simpl in Hfuel.
      generalize (taken l rest) as n. intros n.
      destruct (Nat.le_gt_cases n (length rest)) as [Hn|Hn].
      * rewrite <- (firstn_skipn n rest) at 1.
        replace (pre ++ l :: firstn n rest ++ skipn n rest)
          with ((pre ++ l :: firstn n rest) ++ skipn n rest)
          by (rewrite <- app_assoc; reflexivity).
        replace (length pre + 1 + n) with (length (pre ++ l :: firstn n rest))
          by (rewrite length_app; simpl; rewrite length_firstn; lia).
        rewrite IH by (rewrite length_skipn; lia).
        rewrite prev_of_app. reflexivity.
      * rewrite main_loop_done by (rewrite length_app; simpl; lia).
        rewrite skipn_all2 by lia. simpl. now rewrite app_nil_r.
Qed.

(** The loop terminates: the fuel the formatter gives it is enough, and
    more fuel changes nothing. *)
Lemma main_loop_total (lines : list str) (fuel : nat) :
  length lines <= fuel ->
  main_loop fuel lines 0 [] = Some (run Main None lines).
Proof.
  intros H. exact (main_loop_run fuel [] lines [] H).
Qed.

Lemma format_lines_run (lines : list str) :
  format_lines lines = collapse false (run Main None lines).
Proof.
  unfold format_lines. rewrite main_loop_total by lia.
  now rewrite collapse_blank_collapse.
Qed.

(** ** What each line contributes, and where the cursor stops *)

(** The lines [run] emits for one source line. *)
Definition emit (m : mode) (prev : option str) (l : str) (rest : list str)
  : list str :=
  match m with
  | InCode =>
      l :: (if is_close_fence l then blank_if (next_test non_blank rest) else [])
  | InList =>
      l :: (if next_test is_continuation rest then []
            else blank_if (next_test non_blank rest))
  | Main =>
      if is_heading l then
        blank_if (prev_test non_blank prev)
        ++ sub_colon l :: blank_if (next_test non_blank rest)
      else if is_fence l then blank_if (prev_test non_blank prev) ++ [l]
      else if is_list_item l then
        blank_if (prev_test list_start_gap prev)
        ++ l :: (if next_test is_continuation rest then []
                 else blank_if (next_test non_blank rest))
      else [l]
  end.

(** The mode in which the next line is read. *)
Definition next_mode (m : mode) (l : str) (rest : list str) : mode :=
  match m with
  | InCode => if is_close_fence l then Main else InCode
  | InList => if next_test is_continuation rest then InList else Main
  | Main =>
      if is_heading l then Main
      else if is_fence l then InCode
      else if is_list_item l then
        (if next_test is_continuation rest then InList else Main)
      else Main
  end.

Lemma run_step (m : mode) (prev : option str) (l : str) (rest : list str) :
  run m prev (l :: rest)
  = emit m prev l rest ++ run (next_mode m l rest) (Some l) rest.
Proof.
  destruct m; cbn [run emit next_mode].
  - destruct (is_heading l); [now rewrite <- app_assoc|].
    destruct (is_fence l); [now rewrite <- app_assoc|].
    destruct (is_list_item l); [|reflexivity].
    rewrite <- app_assoc. cbn [app].
    destruct (next_test is_continuation rest); reflexivity.
  - destruct (is_close_fence l); reflexivity.
  - destruct (next_test is_continuation rest); reflexivity.
Qed.

(** The mode in which line [k] of [ls] is read, from mode [m] at line 0. *)
Fixpoint mode_at (m : mode) (ls : list str) (k : nat) {struct k} : mode :=
  match k, ls with
  | S k', l :: rest => mode_at (next_mode m l rest) rest k'
  | _, _ => m
  end.

(** The indices read in the main loop. *)
Fixpoint main_positions (m : mode) (ls : list str) : list nat :=
  match ls with
  | [] => []
  | l :: rest =>
      (match m with Main => [0] | _ => [] end)
      ++ List.map S (main_positions (next_mode m l rest) rest)
  end.

Lemma main_positions_mode_at (ls : list str) :
  forall m k,
    In k (main_positions m ls) <-> k < length ls /\ mode_at m ls k = Main.
Proof.
  induction ls as [|l rest IH]; intros m k; simpl.
  - split; [intros []|]. intros [H _]. lia.
  - rewrite in_app_iff, in_map_iff. split.
    + intros [H|(k' & <- & H)].
      * destruct m; simpl in H; try tauto.
        destruct H as [<-|[]]. split; [lia|reflexivity].
      * apply IH in H. destruct H as [H1 H2]. split; [lia|exact H2].
    + intros [Hk Hm]. destruct k as [|k'].
      * left. simpl in Hm. subst m. now left.
      * right. exists k'. split; trivial. apply IH. split; [lia|exact Hm].
Qed.

(** The values the cursor [i] takes at the head of the loop. *)
Fixpoint cursor_trace (fuel : nat) (lines : list str) (i : nat) : list nat :=
  if length lines <=? i then []
  else match fuel with
       | 0 => []
       | S fuel' => i :: cursor_trace fuel' lines (fst (loop_body lines i []))
       end.

(** Line [k] is the line under the cursor in some iteration of the main
    loop: it is not swallowed by a code block or a list. *)
Definition at_cursor (lines : list str) (k : nat) : bool :=
  existsb (Nat.eqb k) (cursor_trace (length lines) lines 0).

Lemma main_positions_in_code (rest : list str) :
  main_positions InCode rest
  = List.map (Nat.add (S (open_lines rest)))
      (main_positions Main (skipn (S (open_lines rest)) rest)).
Proof.
  induction rest as [|l r IH]; [reflexivity|].
  cbn [main_positions next_mode open_lines app].
  destruct (is_close_fence l).
  - cbn [skipn]. apply map_ext. reflexivity.
  - rewrite IH, map_map. cbn [skipn]. apply map_ext. intros. lia.
Qed.

Lemma main_positions_list_tail (rest : list str) :
  main_positions (if next_test is_continuation rest then InList else Main) rest
  = List.map (Nat.add (length (list_lines rest)))
      (main_positions Main (after_list rest)).
Proof.
  induction rest as [|l r IH]; [reflexivity|].
  cbn [next_test list_lines after_list].
  destruct (is_continuation l).
  - cbn [main_positions next_mode app]. rewrite IH, map_map.
    cbn [length]. apply map_ext. intros. lia.
  - cbn [length]. rewrite map_id. reflexivity.
Qed.

Lemma main_positions_taken (l : str) (rest : list str) :
  main_positions (next_mode Main l rest) rest
  = List.map (Nat.add (taken l rest))
      (main_positions Main (skipn (taken l rest) rest)).
Proof.
  unfold taken. cbn [next_mode].
  destruct (is_heading l); [cbn [skipn]; now rewrite map_id|].
  destruct (is_fence l); [apply main_positions_in_code|].
  destruct (is_list_item l); [|cbn [skipn]; now rewrite map_id].
  rewrite skipn_list_lines. apply main_positions_list_tail.
Qed.

Lemma cursor_trace_done (fuel : nat) (lines : list str) (i : nat) :
  length lines <= i -> cursor_trace fuel lines i = [].
Proof.
  intros H. destruct fuel; simpl;
    destruct (Nat.leb_spec (length lines) i); trivial; lia.
Qed.

Lemma cursor_trace_run (fuel : nat) :
  forall pre rest,
    length rest <= fuel ->
    cursor_trace fuel (pre ++ rest) (length pre)
    = List.map (Nat.add (length pre)) (main_positions Main rest).
Proof.
  induction fuel as [|fuel IH]; intros pre rest Hfuel.
  - destruct rest; [|simpl in Hfuel; lia].
    now rewrite cursor_trace_done by (rewrite length_app; simpl; lia).
  - destruct rest as [|l rest].
    + now rewrite cursor_trace_done by (rewrite length_app; simpl; lia).
    + cbn [cursor_trace].
      destruct (Nat.leb_spec (length (pre ++ l :: rest)) (length pre)) as [H|_];
        [rewrite length_app in H; simpl in H; lia|].
      destruct (loop_body_run pre rest l []) as (out & -> & _).
      cbn [fst main_positions app List.map]. rewrite Nat.add_0_r. f_equal.
      rewrite main_positions_taken, !map_map. simpl in Hfuel.
      generalize (taken l rest) as n. intros n.
      destruct (Nat.le_gt_cases n (length rest)) as [Hn|Hn].
      * rewrite <- (firstn_skipn n rest) at 1.
        replace (pre ++ l :: firstn n rest ++ skipn n rest)
          with ((pre ++ l :: firstn n rest) ++ skipn n rest)
          by (rewrite <- app_assoc; reflexivity).
        replace (length pre + 1 + n) with (length (pre ++ l :: firstn n rest))
          by (rewrite length_app; simpl; rewrite length_firstn; lia).
        rewrite IH by (rewrite length_skipn; lia).
        apply map_ext. intros a. rewrite length_app. simpl.
        rewrite length_firstn. lia.
      * rewrite cursor_trace_done by (rewrite length_app; simpl; lia).
        now rewrite skipn_all2 by lia.
Qed.

(** The cursor stops at line [k] exactly when [run] reads it in [Main]. *)
Lemma at_cursor_mode (lines : list str) (k : nat) :
  at_cursor lines k = true <-> k < length lines /\ mode_at Main lines k = Main.
Proof.
  unfold at_cursor.
  pose proof (cursor_trace_run (length lines) [] lines (le_n _)) as E.
  cbn [length app] in E. rewrite E, map_id, <- main_positions_mode_at.
  rewrite existsb_exists. split.
  - intros (x & Hx & Hk). apply Nat.eqb_eq in Hk. now subst.
  - intros H. exists k. split; [exact H|apply Nat.eqb_refl].
Qed.

(** What [run] emits for the lines [pre], followed by [rest]. *)
Fixpoint run_upto (m : mode) (prev : option str) (pre rest : list str)
  : list str :=
  match pre with
  | [] => []
  | l :: pre' =>
      emit m prev l (pre' ++ rest)
      ++ run_upto (next_mode m l (pre' ++ rest)) (Some l) pre' rest
  end.

Lemma run_app (pre rest : list str) :
  forall m prev,
    run m prev (pre ++ rest)
    = run_upto m prev pre rest
      ++ run (mode_at m (pre ++ rest) (length pre)) (prev_of prev pre) rest.
Proof.
  induction pre as [|l pre IH]; intros m prev; [reflexivity|].
  cbn [app]. rewrite run_step. cbn [run_upto length mode_at prev_of fold_left].
  rewrite IH, <- app_assoc. reflexivity.
Qed.

(** ** The lines of the output *)

Lemma emit_no_newline (m : mode) (prev : option str) (l : str) (rest : list str) :
  no_newline l -> Forall no_newline (emit m prev l rest).
Proof.
  intros Hl.
  assert (Hnil : no_newline []) by (intros []).
  assert (Hb : forall b, Forall no_newline (blank_if b))
    by (intros []; repeat constructor; exact Hnil).
  destruct m; cbn [emit].
  - destruct (is_heading l).
    + apply Forall_app. split; [apply Hb|].
      constructor; [now apply sub_colon_no_newline|apply Hb].
    + destruct (is_fence l).
      * apply Forall_app. split; [apply Hb|now repeat constructor].
      * destruct (is_list_item l); [|now repeat constructor].
        apply Forall_app. split; [apply Hb|]. constructor; trivial.
        destruct (next_test is_continuation rest); [constructor|apply Hb].
  - constructor; trivial. destruct (is_close_fence l); [apply Hb|constructor].
  - constructor; trivial.
    destruct (next_test is_continuation rest); [constructor|apply Hb].
Qed.

Lemma run_no_newline (ls : list str) :
  forall m prev, Forall no_newline ls -> Forall no_newline (run m prev ls).
Proof.
  induction ls as [|l rest IH]; intros m prev H; [constructor|].
  inversion H; subst. rewrite run_step. apply Forall_app. split.
  - now apply emit_no_newline.
  - now apply IH.
Qed.

Lemma collapse_incl (ls : list str) :
  forall b x, In x (collapse b ls) -> In x ls.
Proof.
  induction ls as [|l rest IH]; intros b x; simpl; [tauto|].
  destruct (is_blank l).
  - rewrite in_app_iff. intros [H|H].
    + destruct b; simpl in H; tauto.
    + right. eapply IH, H.
  - simpl. intros [H|H]; [now left|]. right. eapply IH, H.
Qed.

Lemma run_not_nil (l : str) (rest : list str) (prev : option str) :
  run Main prev (l :: rest) <> [].
Proof.
  cbn [run].
  destruct (is_heading l); [intros H; apply app_eq_nil in H; now destruct H|].
  destruct (is_fence l); [intros H; apply app_eq_nil in H; now destruct H|].
  destruct (is_list_item l); [intros H; apply app_eq_nil in H; now destruct H|].
  discriminate.
Qed.

Lemma collapse_not_nil (ls : list str) : ls <> [] -> collapse false ls <> [].
Proof.
  destruct ls as [|l rest]; [congruence|]. intros _. simpl.
  destruct (is_blank l); discriminate.
Qed.

(** The lines of the returned string are the lines the function joined. *)
Definition output_lines (content : str) : list str :=
  split_nl (fix_markdown_formatting content).

Lemma output_lines_format (content : str) :
  output_lines content = format_lines (split_nl content).
Proof.
  unfold output_lines, fix_markdown_formatting.
  rewrite split_join; trivial; rewrite format_lines_run.
  - apply collapse_not_nil.
    destruct (split_nl content) as [|l rest] eqn:E;
      [now apply split_nl_not_nil in E|apply run_not_nil].
  - apply Forall_forall. intros x Hx. apply collapse_incl in Hx.
    revert x Hx. apply Forall_forall, run_no_newline, split_nl_no_newline.
Qed.

Lemma output_lines_run (content : str) :
  output_lines content = collapse false (run Main None (split_nl content)).
Proof. now rewrite output_lines_format, format_lines_run. Qed.

(** ** Blank runs *)

(** Two blank lines in a row somewhere in [ls]. *)
Fixpoint has_adjacent_blank (ls : list str) : bool :=
  match ls with
  | x :: (y :: _) as rest => is_blank x && is_blank y || has_adjacent_blank rest
  | _ => false
  end.

Lemma has_adjacent_blank_spec (ls : list str) :
  has_adjacent_blank ls = true
  <-> exists a x y b,
        ls = a ++ x :: y :: b /\ is_blank x = true /\ is_blank y = true.
Proof.
  induction ls as [|x [|y rest] IH].
  - split; [discriminate|]. intros (a & x & y & b & E & _). now destruct a.
  - split; [discriminate|]. intros (a & x' & y & b & E & _).
    destruct a as [|? [|? ?]]; discriminate.
  - cbn [has_adjacent_blank]. rewrite orb_true_iff, andb_true_iff, IH. split.
    + intros [[Hx Hy]|(a & x' & y' & b & E & Hx & Hy)].
      * now exists [], x, y, rest.
      * exists (x :: a), x', y', b. rewrite E. auto.
    + intros (a & x' & y' & b & E & Hx & Hy). destruct a as [|z a].
      * injection E as <- <- _. now left.
      * injection E as <- E. right. now exists a, x', y', b.
Qed.

Lemma collapse_head (ls : list str) :
  next_test is_blank (collapse true ls) = false.
Proof.
  induction ls as [|l rest IH]; [reflexivity|]. simpl.
  destruct (is_blank l) eqn:E; [exact IH|]. simpl. exact E.
Qed.

Lemma collapse_no_adjacent_blank (ls : list str) :
  forall b, has_adjacent_blank (collapse b ls) = false.
Proof.
  induction ls as [|l rest IH]; intros b; [reflexivity|]. simpl.
  destruct (is_blank l) eqn:E.
  - destruct b; [apply IH|]. cbn [app].
    pose proof (collapse_head rest) as Hh. specialize (IH true).
    destruct (collapse true rest) as [|y t]; [reflexivity|].
    change (has_adjacent_blank (l :: y :: t))
      with (is_blank l && is_blank y || has_adjacent_blank (y :: t)).
    simpl in Hh. now rewrite Hh, andb_false_r, IH.
  - specialize (IH false).
    destruct (collapse false rest) as [|y t]; [reflexivity|].
    change (has_adjacent_blank (l :: y :: t))
      with (is_blank l && is_blank y || has_adjacent_blank (y :: t)).
    now rewrite E, IH.
Qed.

(** ** Properties of the formatter *)

(** C5: no output of the formatter has two blank lines in a row, a blank
    line being a line that is empty or made of white space only. *)
Theorem no_consecutive_blank_lines (content : str) :
  has_adjacent_blank (output_lines content) = false.
Proof.
  rewrite output_lines_run. apply collapse_no_adjacent_blank.
Qed.

(** C7: on "Para\n```\ncode\n```\nMore" the formatter returns
    "Para\n\n```\ncode\n```\n\nMore": a blank line before the opening
    fence and one after the closing fence. *)
Theorem example_2 :
  fix_markdown_formatting (doc ["Para"; "```"; "code"; "```"; "More"]%string)
  = doc ["Para"; ""; "```"; "code"; "```"; ""; "More"]%string.
Proof. vm_compute. reflexivity. Qed.

(** C10: the empty string is formatted to the empty string. *)
Theorem format_empty : fix_markdown_formatting (lit "") = lit "".
Proof. vm_compute. reflexivity. Qed.

(** ** The lines that are not blank *)

(** What a source line becomes in the output. *)
Definition image (m : mode) (l : str) : str :=
  match m with
  | Main => if is_heading l then sub_colon l else l
  | _ => l
  end.

Lemma filter_blank_if (b : bool) : filter non_blank (blank_if b) = [].
Proof. now destruct b. Qed.

Lemma non_blank_image (m : mode) (l : str) : non_blank (image m l) = non_blank l.
Proof.
  destruct m; trivial. cbn [image]. destruct (is_heading l) eqn:Hh; trivial.
  rewrite (is_heading_non_blank _ Hh).
  apply is_heading_non_blank, is_heading_sub_colon, Hh.
Qed.

Lemma filter_emit (m : mode) (prev : option str) (l : str) (rest : list str) :
  filter non_blank (emit m prev l rest) = filter non_blank [image m l].
Proof.
  assert (Hb : forall b t, filter non_blank (blank_if b ++ t) = filter non_blank t)
    by (intros b t; now rewrite filter_app, filter_blank_if).
  assert (Hc : forall x b, filter non_blank (x :: blank_if b) = filter non_blank [x])
    by (intros x []; cbn; destruct (non_blank x); reflexivity).
  destruct m; cbn [emit image].
  - destruct (is_heading l); [now rewrite Hb, Hc|].
    destruct (is_fence l); [now rewrite Hb|].
    destruct (is_list_item l); [|reflexivity].
    rewrite Hb. destruct (next_test is_continuation rest); [reflexivity|apply Hc].
  - destruct (is_close_fence l); [apply Hc|reflexivity].
  - destruct (next_test is_continuation rest); [reflexivity|apply Hc].
Qed.

Lemma filter_collapse (ls : list str) :
  forall b, filter non_blank (collapse b ls) = filter non_blank ls.
Proof.
  induction ls as [|l rest IH]; intros b; [reflexivity|]. simpl.
  unfold non_blank at 2. destruct (is_blank l) eqn:E; simpl.
  - rewrite filter_app, IH. destruct b; simpl; trivial.
    unfold non_blank at 1. now rewrite E.
  - unfold non_blank at 1. rewrite E. simpl. now rewrite IH.
Qed.

(** A source line and the line it becomes. *)
Definition same_or_colon_removed (a b : str) : Prop :=
  b = a \/ (is_heading a = true /\ b = sub_colon a).

Lemma image_same_or_colon_removed (m : mode) (l : str) :
  same_or_colon_removed l (image m l).
Proof.
  destruct m; try now left. cbn [image].
  destruct (is_heading l) eqn:Hh; [now right|now left].
Qed.

Lemma non_blank_run (ls : list str) :
  forall m prev,
    Forall2 same_or_colon_removed
      (filter non_blank ls) (filter non_blank (run m prev ls)).
Proof.
  induction ls as [|l rest IH]; intros m prev; [constructor|].
  rewrite run_step, filter_app, filter_emit. cbn [filter].
  rewrite non_blank_image. destruct (non_blank l); cbn [app]; [|apply IH].
  constructor; [apply image_same_or_colon_removed|apply IH].
Qed.

(** A source line and the line it is in the output: the same, or a
    heading with its last character, a colon, removed. *)
Definition unchanged_or_colon_removed (a b : str) : Prop :=
  b = a \/ (is_heading a = true /\ a = b ++ [COLON]).

Lemma same_or_colon_removed_no_newline (a b : str) :
  no_newline a -> same_or_colon_removed a b -> unchanged_or_colon_removed a b.
Proof.
  intros Ha [->|[Hh ->]]; [now left|].
  destruct (sub_colon_cases a) as [->|[(x & E & ->)|(x & E & _)]].
  - now left.
  - now right.
  - exfalso. apply Ha. rewrite E. apply in_or_app. right. right. now left.
Qed.

Lemma Forall2_impl_left (A B : Type) (P : A -> Prop) (R1 R2 : A -> B -> Prop)
  (xs : list A) (ys : list B) :
  (forall a b, P a -> R1 a b -> R2 a b) ->
  Forall P xs -> Forall2 R1 xs ys -> Forall2 R2 xs ys.
Proof.
  intros HR HP H. induction H as [|a b xs ys Hab H IH]; constructor.
  - apply HR; [now inversion HP|exact Hab].
  - apply IH. now inversion HP.
Qed.

Lemma Forall_filter (A : Type) (P : A -> Prop) (f : A -> bool) (xs : list A) :
  Forall P xs -> Forall P (filter f xs).
Proof.
  intros H. apply Forall_forall. intros x Hx. apply filter_In in Hx.
  destruct Hx as [Hx _]. revert x Hx. now apply Forall_forall.
Qed.

Lemma mode_at_succ (pre : list str) (l : str) (rest : list str) :
  forall m0,
    mode_at m0 (pre ++ l :: rest) (S (length pre))
    = next_mode (mode_at m0 (pre ++ l :: rest) (length pre)) l rest.
Proof.
  induction pre as [|x pre IH]; intros m0; [reflexivity|].
  cbn [app length]. cbn [mode_at]. apply IH.
Qed.

(** The lines with their indices: [enumerate(lines)]. *)
Definition numbered (lines : list str) : list (nat * str) :=
  combine (seq 0 (length lines)) lines.

(** Line [k] of the input, [l], and the line [b] it is in the output:
    the same, or, when [l] is a heading and the line under the cursor of
    the main loop in some iteration, [l] without the colon it ends in. *)
Definition kept_line (lines : list str) (kl : nat * str) (b : str) : Prop :=
  b = snd kl
  \/ (is_heading (snd kl) = true
      /\ at_cursor lines (fst kl) = true
      /\ snd kl = b ++ [COLON]).

Lemma non_blank_run_numbered (lines : list str) :
  forall ls pre prev,
    lines = pre ++ ls ->
    Forall2 (fun kl b => b = image (mode_at Main lines (fst kl)) (snd kl))
      (filter (fun kl => non_blank (snd kl))
         (combine (seq (length pre) (length ls)) ls))
      (filter non_blank (run (mode_at Main lines (length pre)) prev ls)).
Proof.
  induction ls as [|l rest IH]; intros pre prev E; [constructor|].
  rewrite run_step, filter_app, filter_emit.
  cbn [length seq combine filter snd]. rewrite non_blank_image.
  assert (Hrest :
    Forall2 (fun kl b => b = image (mode_at Main lines (fst kl)) (snd kl))
      (filter (fun kl => non_blank (snd kl))
         (combine (seq (S (length pre)) (length rest)) rest))
      (filter non_blank
         (run (next_mode (mode_at Main lines (length pre)) l rest)
            (Some l) rest))).
  { specialize (IH (pre ++ [l]) (Some l)).
    rewrite length_app in IH. cbn [length] in IH.
    rewrite Nat.add_1_r in IH.
    assert (Em : mode_at Main lines (S (length pre))
                 = next_mode (mode_at Main lines (length pre)) l rest)
      by (rewrite E; apply mode_at_succ).
    rewrite <- Em. apply IH.
    rewrite E, <- app_assoc. reflexivity. }
  destruct (non_blank l); cbn [app]; [|exact Hrest].
  constructor; [reflexivity|exact Hrest].
Qed.

Lemma numbered_in (lines : list str) (k : nat) (l : str) :
  In (k, l) (numbered lines) -> k < length lines /\ In l lines.
Proof.
  intros H. split.
  - apply in_combine_l in H. apply in_seq in H. lia.
  - now apply in_combine_r in H.
Qed.

Lemma image_kept_line (lines : list str) (k : nat) (l : str) :
  k < length lines -> no_newline l ->
  kept_line lines (k, l) (image (mode_at Main lines k) l).
Proof.
  intros Hk Hn. unfold kept_line. cbn [fst snd].
  destruct (mode_at Main lines k) eqn:Hm; cbn [image]; try now left.
  destruct (is_heading l) eqn:Hh; [|now left].
  assert (Hc : at_cursor lines k = true) by (apply at_cursor_mode; now split).
  destruct (sub_colon_cases l) as [->|[(a & E & ->)|(a & E & _)]].
  - now left.
  - right. auto.
  - exfalso. apply Hn. rewrite E. apply in_or_app. right. right. now left.
Qed.

(** C9: the lines of the output that are not blank are the lines of the
    input that are not blank, in the same order and one for one: no such
    line is dropped, duplicated or moved.  Each is unchanged, except that
    a heading that is the line under the cursor of the main loop may have
    lost one colon, its last character; a heading-shaped line that the
    loop copies as part of a code block is unchanged. *)
Theorem non_blank_lines_preserved (content : str) :
  Forall2 (kept_line (split_nl content))
    (filter (fun kl => non_blank (snd kl)) (numbered (split_nl content)))
    (filter non_blank (output_lines content)).
Proof.
  rewrite output_lines_run, filter_collapse.
  set (lines := split_nl content).
  apply Forall2_impl_left
    with (P := fun kl => In kl (numbered lines))
         (R1 := fun kl b => b = image (mode_at Main lines (fst kl)) (snd kl)).
  - intros [k l] b Hin ->. cbn [fst snd].
    apply numbered_in in Hin. destruct Hin as [Hk Hl].
    apply image_kept_line; trivial.
    pose proof (split_nl_no_newline content) as Hn.
    rewrite Forall_forall in Hn. now apply Hn.
  - apply Forall_filter, Forall_forall. auto.
  - exact (non_blank_run_numbered lines lines [] None eq_refl).
Qed.

(** ** Trailing colons *)

Lemma filter_app_inv (A : Type) (p : A -> bool) (L : list A) :
  forall X x Y,
    filter p L = X ++ x :: Y ->
    exists X' Y', L = X' ++ x :: Y' /\ filter p X' = X /\ filter p Y' = Y.
Proof.
  induction L as [|z L IH]; intros X x Y E; simpl in E.
  - now destruct X.
  - destruct (p z) eqn:Hz.
    + destruct X as [|z' X]; simpl in E.
      * injection E as -> E. now exists [], L.
      * injection E as -> E. destruct (IH _ _ _ E) as (X' & Y' & -> & <- & <-).
        exists (z' :: X'), Y'. simpl. now rewrite Hz.
    + destruct (IH _ _ _ E) as (X' & Y' & -> & <- & <-).
      exists (z :: X'), Y'. simpl. now rewrite Hz.
Qed.

Lemma filter_run_upto (pre rest : list str) :
  forall m prev,
    length (filter non_blank (run_upto m prev pre rest))
    = length (filter non_blank pre).
Proof.
  induction pre as [|l pre IH]; intros m prev; [reflexivity|].
  cbn [run_upto]. rewrite filter_app, length_app, filter_emit, IH.
  cbn [filter]. rewrite non_blank_image. now destruct (non_blank l).
Qed.

Lemma filter_run_length (ls : list str) (m : mode) (prev : option str) :
  length (filter non_blank (run m prev ls)) = length (filter non_blank ls).
Proof.
  symmetry. eapply Forall2_length, non_blank_run.
Qed.

Lemma non_blank_ends_colon (a : str) : non_blank (a ++ [COLON]) = true.
Proof.
  unfold non_blank. rewrite is_blank_spec, forallb_app. simpl.
  now rewrite andb_false_r.
Qed.

(** The line at index [length pre] and what it becomes in the output. *)
Lemma output_line_image (pre post : list str) (l : str) :
  non_blank l = true ->
  exists X Y,
    collapse false (run Main None (pre ++ l :: post))
    = X ++ image (mode_at Main (pre ++ l :: post) (length pre)) l :: Y
    /\ length (filter non_blank X) = length (filter non_blank pre)
    /\ length (filter non_blank Y) = length (filter non_blank post).
Proof.
  intros Hl.
  set (m := mode_at Main (pre ++ l :: post) (length pre)).
  assert (E : filter non_blank (collapse false (run Main None (pre ++ l :: post)))
              = filter non_blank (run_upto Main None pre (l :: post))
                ++ image m l
                :: filter non_blank (run (next_mode m l post) (Some l) post)).
  { rewrite filter_collapse, run_app, filter_app. fold m.
    rewrite run_step, filter_app, filter_emit. cbn [filter].
    now rewrite non_blank_image, Hl. }
  apply filter_app_inv in E. destruct E as (X & Y & -> & HX & HY).
  exists X, Y. split; [reflexivity|]. split.
  - now rewrite HX, filter_run_upto.
  - now rewrite HY, filter_run_length.
Qed.

(** C4, as the code has it: a heading that ends in a colon and that the
    main loop reads loses exactly that colon; a line that ends in a colon
    and is not a heading, or is a heading copied as part of a code block,
    is in the output as it is.  The line is found in the output by the
    number of non-blank lines before and after it. *)
Theorem trailing_colon (content : str) (pre post : list str) (a : str) :
  split_nl content = pre ++ (a ++ [COLON]) :: post ->
  exists X Y,
    output_lines content
    = X ++ (if is_heading (a ++ [COLON])
               && at_cursor (split_nl content) (length pre)
            then a else a ++ [COLON]) :: Y
    /\ length (filter non_blank X) = length (filter non_blank pre)
    /\ length (filter non_blank Y) = length (filter non_blank post).
Proof.
  change (list char) with str. intros E. rewrite output_lines_run, E.
  destruct (output_line_image pre post (a ++ [COLON]) (non_blank_ends_colon a))
    as (X & Y & -> & HX & HY).
  exists X, Y. split; [|now split]. do 2 f_equal.
  destruct (at_cursor _ _) eqn:Hc.
  - apply at_cursor_mode in Hc. destruct Hc as [_ ->]. cbn [image].
    rewrite andb_true_r. destruct (is_heading _); trivial.
    apply sub_colon_ends_colon.
  - rewrite andb_false_r. destruct (mode_at _ _ _) eqn:Hm; trivial.
    exfalso. apply not_true_iff_false in Hc. apply Hc, at_cursor_mode.
    split; [|exact Hm]. rewrite length_app. simpl. lia.
Qed.

Lemma trailing_colon_witness :
  exists X Y,
    output_lines (doc ["Intro:"; "# Title:"; "Some text"]%string)
    = X ++ lit "# Title" :: Y
    /\ length (filter non_blank X) = 1
    /\ length (filter non_blank Y) = 1.
Proof.
  exact (trailing_colon (doc ["Intro:"; "# Title:"; "Some text"]%string)
           [lit "Intro:"] [lit "Some text"] (lit "# Title") eq_refl).
Defined.

(** C4 as stated fails on a heading inside a code block: the line is
    copied with its colon. *)
Lemma heading_in_code_block_keeps_colon :
  is_heading (lit "# h:") = true
  /\ output_lines (doc ["```"; "# h:"; "```"]%string)
     = [lit "```"; lit "# h:"; lit "```"].
Proof. split; vm_compute; reflexivity. Qed.

(** ** Code blocks *)

(** [prev_empty] after the second loop has read [ls]. *)
Definition blank_after (prev_empty : bool) (ls : list str) : bool :=
  fold_left (fun _ x => is_blank x) ls prev_empty.

Lemma collapse_app (xs ys : list str) :
  forall b,
    collapse b (xs ++ ys) = collapse b xs ++ collapse (blank_after b xs) ys.
Proof.
  induction xs as [|x xs IH]; intros b; [reflexivity|].
  cbn [app collapse blank_after fold_left].
  destruct (is_blank x); rewrite IH.
  - now rewrite <- app_assoc.
  - reflexivity.
Qed.

Lemma collapse_non_blank (b : bool) (l : str) (rest : list str) :
  non_blank l = true -> collapse b (l :: rest) = l :: collapse false rest.
Proof.
  unfold non_blank. intros H. apply negb_true_iff in H.
  cbn [collapse]. now rewrite H.
Qed.

(** A block between two fences, in the second loop: the lines between the
    fences go through it on their own. *)
Lemma collapse_block (P body Z : list str) (open close : str) :
  non_blank open = true -> non_blank close = true ->
  collapse false (P ++ open :: body ++ close :: Z)
  = collapse false P
    ++ open :: collapse false body ++ close :: collapse false Z.
Proof.
  intros Ho Hc.
  rewrite collapse_app, (collapse_non_blank _ _ _ Ho), collapse_app.
  now rewrite (collapse_non_blank _ _ _ Hc).
Qed.

Definition not_close_fence (l : str) : bool := negb (is_close_fence l).

(** Inside a code block, up to the closing fence. *)
Lemma run_code_body (body : list str) (close : str) (post : list str) :
  forallb not_close_fence body = true ->
  is_close_fence close = true ->
  forall prev,
    run InCode prev (body ++ close :: post)
    = body ++ close
      :: blank_if (next_test non_blank post) ++ run Main (Some close) post.
Proof.
  intros Hb Hc. induction body as [|l body IH]; intros prev.
  - cbn [app run]. now rewrite Hc.
  - cbn [forallb] in Hb. apply andb_prop in Hb. destruct Hb as [Hl Hb].
    unfold not_close_fence in Hl. apply negb_true_iff in Hl.
    cbn [app run]. rewrite Hl, IH by exact Hb. reflexivity.
Qed.

(** Inside a code block that is never closed. *)
Lemma run_code_open (rest : list str) :
  forallb not_close_fence rest = true ->
  forall prev, run InCode prev rest = rest.
Proof.
  induction rest as [|l rest IH]; intros Hb prev; [reflexivity|].
  cbn [forallb] in Hb. apply andb_prop in Hb. destruct Hb as [Hl Hb].
  unfold not_close_fence in Hl. apply negb_true_iff in Hl.
  cbn [run]. rewrite Hl, IH by exact Hb. reflexivity.
Qed.

(** The loop at an opening fence. *)
Lemma run_at_fence (pre rest : list str) (open : str) :
  at_cursor (pre ++ open :: rest) (length pre) = true ->
  is_fence open = true ->
  exists P,
    run Main None (pre ++ open :: rest)
    = P ++ open :: run InCode (Some open) rest.
Proof.
  intros Hc Hf. apply at_cursor_mode in Hc. destruct Hc as [_ Hm].
  rewrite run_app, Hm. cbn [run].
  destruct (is_heading open) eqn:Hh;
    [apply is_heading_not_fence in Hh; congruence|].
  rewrite Hf.
  exists (run_upto Main None pre (open :: rest)
          ++ blank_if (prev_test non_blank (prev_of None pre))).
  now rewrite <- app_assoc.
Qed.

Lemma main_loop_output (content : str) :
  main_loop (length (split_nl content)) (split_nl content) 0 []
  = Some (run Main None (split_nl content)).
Proof. apply main_loop_total, le_n. Qed.

(** C2, as the code has it: the main loop copies the lines between an
    opening fence it reads and the next closing fence as they are, and in
    the output they stand between the two fences in the same order, except
    that the second loop keeps only the first line of each run of blank
    lines among them. *)
Theorem code_block_content (content : str) (pre body post : list str)
  (open close : str) :
  split_nl content = pre ++ open :: body ++ close :: post ->
  at_cursor (split_nl content) (length pre) = true ->
  is_fence open = true ->
  forallb not_close_fence body = true ->
  is_close_fence close = true ->
  exists P Z,
    main_loop (length (split_nl content)) (split_nl content) 0 []
    = Some (P ++ open :: body ++ close :: Z)
    /\ output_lines content
       = collapse false P
         ++ open :: collapse false body ++ close :: collapse false Z.
Proof.
  intros E Hc Hf Hb Hcl.
  rewrite output_lines_run, main_loop_output. rewrite E in *.
  destruct (run_at_fence _ _ _ Hc Hf) as (P & ->).
  rewrite (run_code_body _ _ _ Hb Hcl).
  eexists P, _. split; [reflexivity|].
  apply collapse_block.
  - now apply is_fence_non_blank.
  - now apply is_fence_non_blank, is_close_fence_is_fence.
Qed.

Lemma code_block_content_witness :
  exists P Z,
    main_loop 5 (split_nl (doc ["Para"; "```"; "# code:"; "```"; "More"]%string))
      0 []
    = Some (P ++ lit "```" :: [lit "# code:"] ++ lit "```" :: Z)
    /\ output_lines (doc ["Para"; "```"; "# code:"; "```"; "More"]%string)
       = collapse false P
         ++ lit "```" :: [lit "# code:"] ++ lit "```" :: collapse false Z.
Proof.
  exact (code_block_content
           (doc ["Para"; "```"; "# code:"; "```"; "More"]%string)
           [lit "Para"] [lit "# code:"] [lit "More"] (lit "```") (lit "```")
           eq_refl eq_refl eq_refl eq_refl eq_refl).
Defined.

(** C2 as stated fails on a block with two blank lines in a row: only one
    of them is in the output. *)
Lemma code_block_blank_lines_dropped :
  split_nl (doc ["```"; ""; ""; "```"]%string)
  = [] ++ lit "```" :: [lit ""; lit ""] ++ lit "```" :: []
  /\ output_lines (doc ["```"; ""; ""; "```"]%string)
     = [lit "```"; lit ""; lit "```"]
  /\ ~ (exists X Y,
          output_lines (doc ["```"; ""; ""; "```"]%string)
          = X ++ [lit ""; lit ""] ++ Y).
Proof.
  split; [reflexivity|]. split; [vm_compute; reflexivity|].
  intros (X & Y & E).
  assert (H : has_adjacent_blank (X ++ [lit ""; lit ""] ++ Y) = true).
  { apply has_adjacent_blank_spec. now exists X, (lit ""), (lit ""), Y. }
  rewrite <- E, output_lines_run, collapse_no_adjacent_blank in H.
  discriminate.
Qed.

(** C6, as the code has it: after an opening fence that the main loop
    reads and that no later line closes, the main loop copies every line
    up to the end of the document as it is, headings and list items
    included; the second loop then keeps only the first line of each run
    of blank lines among them. *)
Theorem unterminated_fence (content : str) (pre rest : list str) (open : str) :
  split_nl content = pre ++ open :: rest ->
  at_cursor (split_nl content) (length pre) = true ->
  is_fence open = true ->
  forallb not_close_fence rest = true ->
  exists P,
    main_loop (length (split_nl content)) (split_nl content) 0 []
    = Some (P ++ open :: rest)
    /\ output_lines content = collapse false P ++ open :: collapse false rest.
Proof.
  intros E Hc Hf Hb.
  rewrite output_lines_run, main_loop_output. rewrite E in *.
  destruct (run_at_fence _ _ _ Hc Hf) as (P & ->).
  rewrite (run_code_open _ Hb).
  exists P. split; [reflexivity|].
  rewrite collapse_app. f_equal.
  apply collapse_non_blank. now apply is_fence_non_blank.
Qed.

Lemma unterminated_fence_witness :
  exists P,
    main_loop 4 (split_nl (doc ["Para"; "```"; "# not a heading:"; "- x"]%string))
      0 []
    = Some (P ++ lit "```" :: [lit "# not a heading:"; lit "- x"])
    /\ output_lines (doc ["Para"; "```"; "# not a heading:"; "- x"]%string)
       = collapse false P
         ++ lit "```" :: collapse false [lit "# not a heading:"; lit "- x"].
Proof.
  exact (unterminated_fence
           (doc ["Para"; "```"; "# not a heading:"; "- x"]%string)
           [lit "Para"] [lit "# not a heading:"; lit "- x"] (lit "```")
           eq_refl eq_refl eq_refl eq_refl).
Defined.

(** C6 as stated fails when two blank lines in a row follow the fence:
    the output has one of them. *)
Lemma unterminated_fence_blank_lines_dropped :
  split_nl (doc ["```"; ""; ""; "x"]%string)
  = [] ++ lit "```" :: [lit ""; lit ""; lit "x"]
  /\ output_lines (doc ["```"; ""; ""; "x"]%string)
     = [lit "```"; lit ""; lit "x"]
  /\ ~ (exists X,
          output_lines (doc ["```"; ""; ""; "x"]%string)
          = X ++ [lit ""; lit ""; lit "x"]).
Proof.
  split; [reflexivity|]. split; [vm_compute; reflexivity|].
  intros (X & E).
  assert (H : has_adjacent_blank (X ++ [lit ""; lit ""; lit "x"]) = true).
  { apply has_adjacent_blank_spec. now exists X, (lit ""), (lit ""), [lit "x"]. }
  rewrite <- E, output_lines_run, collapse_no_adjacent_blank in H.
  discriminate.
Qed.

(** ** Headings *)

Definition ends_blank (ls : list str) : Prop :=
  exists Q b, ls = Q ++ [b] /\ is_blank b = true.

Definition starts_blank (ls : list str) : Prop :=
  exists b Z, ls = b :: Z /\ is_blank b = true.

Lemma ends_blank_app (xs ys : list str) : ends_blank ys -> ends_blank (xs ++ ys).
Proof.
  intros (Q & b & -> & Hb). exists (xs ++ Q), b. now rewrite app_assoc.
Qed.

Lemma ends_blank_blank_if (xs : list str) : ends_blank (xs ++ blank_if true).
Proof. exists xs, []. now split. Qed.

(** Before a non-blank line that the main loop reads there is a blank
    line in [fixed_lines], once the loop has made up its mind about the
    blank line before headings. *)
Lemma run_upto_ends_blank (pre : list str) (h : str) (post : list str) :
  non_blank h = true ->
  forall m prev,
    pre <> [] ->
    mode_at m (pre ++ h :: post) (length pre) = Main ->
    ends_blank (run_upto m prev pre (h :: post)
                ++ blank_if (prev_test non_blank (prev_of prev pre))).
Proof.
  intros Hh. induction pre as [|l pre IH]; intros m prev Hne Hm; [congruence|].
  destruct pre as [|l2 pre].
  - clear IH. cbn [run_upto app length mode_at prev_of fold_left prev_test] in *.
    rewrite app_nil_r.
    assert (Hn : next_test non_blank (h :: post) = true) by exact Hh.
    assert (Hplain : ends_blank ([l] ++ blank_if (non_blank l))).
    { destruct (non_blank l) eqn:Hl; [apply ends_blank_blank_if|].
      exists [], l. split; [reflexivity|].
      unfold non_blank in Hl. now apply negb_false_iff in Hl. }
    assert (Hbi : forall xs c, ends_blank xs -> ends_blank (xs ++ blank_if c)).
    { intros xs [] H; [apply ends_blank_blank_if|now rewrite app_nil_r]. }
    destruct m; cbn [emit next_mode] in *.
    + destruct (is_heading l).
      * rewrite Hn. apply Hbi, ends_blank_app.
        exists [sub_colon l], []. now split.
      * destruct (is_fence l); [discriminate|].
        destruct (is_list_item l); [|exact Hplain].
        destruct (next_test is_continuation (h :: post)); [discriminate|].
        rewrite Hn. apply Hbi, ends_blank_app. exists [l], []. now split.
    + destruct (is_close_fence l); [|discriminate].
      rewrite Hn. apply Hbi. exists [l], []. now split.
    + destruct (next_test is_continuation (h :: post)); [discriminate|].
      rewrite Hn. apply Hbi. exists [l], []. now split.
  - change (run_upto m prev (l :: l2 :: pre) (h :: post))
      with (emit m prev l ((l2 :: pre) ++ h :: post)
            ++ run_upto (next_mode m l ((l2 :: pre) ++ h :: post)) (Some l)
                 (l2 :: pre) (h :: post)).
    rewrite <- app_assoc. apply ends_blank_app.
    apply IH; [discriminate|exact Hm].
Qed.

Lemma is_blank_plain (n : str) :
  is_blank n = true ->
  is_heading n = false /\ is_fence n = false /\ is_list_item n = false.
Proof.
  intros Hn. repeat split.
  - destruct (is_heading n) eqn:H; trivial.
    apply is_heading_non_blank in H. unfold non_blank in H. now rewrite Hn in H.
  - destruct (is_fence n) eqn:H; trivial.
    apply is_fence_non_blank in H. unfold non_blank in H. now rewrite Hn in H.
  - destruct (is_list_item n) eqn:H; trivial.
    apply is_list_item_non_blank in H. unfold non_blank in H. now rewrite Hn in H.
Qed.

(** After a heading there is a blank line in [fixed_lines]. *)
Lemma run_after_heading_starts_blank (post : list str) (prev : option str) :
  post <> [] ->
  starts_blank (blank_if (next_test non_blank post) ++ run Main prev post).
Proof.
  destruct post as [|n post]; [congruence|]. intros _.
  cbn [next_test]. destruct (non_blank n) eqn:Hn.
  - now exists [], (run Main prev (n :: post)).
  - unfold non_blank in Hn. apply negb_false_iff in Hn.
    destruct (is_blank_plain _ Hn) as (H1 & H2 & H3).
    cbn [blank_if app run]. rewrite H1, H2, H3.
    now exists n, (run Main (Some n) post).
Qed.

Lemma collapse_ends_blank (Q : list str) :
  blank_after false Q = true -> ends_blank (collapse false Q).
Proof.
  induction Q as [|x Q IH] using rev_ind; [discriminate|].
  unfold blank_after. rewrite fold_left_app. cbn [fold_left]. intros Hx.
  rewrite collapse_app. cbn [collapse]. rewrite Hx, app_nil_r.
  destruct (blank_after false Q) eqn:HQ.
  - rewrite app_nil_r. now apply IH.
  - now exists (collapse false Q), x.
Qed.

Lemma collapse_snoc_blank (Q : list str) (b : str) :
  is_blank b = true -> ends_blank (collapse false (Q ++ [b])).
Proof.
  intros Hb. apply collapse_ends_blank.
  unfold blank_after. now rewrite fold_left_app.
Qed.

(** C3, as the code has it: a heading that the main loop reads and that
    is neither the first nor the last line of the document stands, in the
    output, after exactly one blank line and before exactly one blank
    line, with its trailing colon removed if it had one. *)
Theorem heading_isolated (content : str) (pre post : list str) (h : str) :
  split_nl content = pre ++ h :: post ->
  0 < length pre ->
  0 < length post ->
  is_heading h = true ->
  at_cursor (split_nl content) (length pre) = true ->
  exists X b1 b2 Y,
    output_lines content = X ++ b1 :: sub_colon h :: b2 :: Y
    /\ is_blank b1 = true /\ is_blank b2 = true
    /\ (forall X' x, X = X' ++ [x] -> is_blank x = false)
    /\ next_test is_blank Y = false
    /\ length (filter non_blank X) = length (filter non_blank pre).
Proof.
  intros E Hpre Hpost Hh Hc.
  rewrite output_lines_run, E. rewrite E in Hc.
  apply at_cursor_mode in Hc. destruct Hc as [_ Hm].
  rewrite run_app, Hm. cbn [run]. rewrite Hh, app_assoc.
  set (A := run_upto Main None pre (h :: post)
            ++ blank_if (prev_test non_blank (prev_of None pre))).
  assert (HA : ends_blank A).
  { apply run_upto_ends_blank; trivial.
    - now apply is_heading_non_blank.
    - destruct pre; [simpl in Hpre; lia|discriminate]. }
  assert (HfA : length (filter non_blank A) = length (filter non_blank pre)).
  { unfold A. now rewrite filter_app, filter_blank_if, app_nil_r, filter_run_upto. }
  destruct (run_after_heading_starts_blank post (Some h)) as (b2 & Z & -> & Hb2).
  { destruct post; [simpl in Hpost; lia|discriminate]. }
  rewrite collapse_app, collapse_non_blank
    by now apply is_heading_non_blank, is_heading_sub_colon.
  cbn [collapse]. rewrite Hb2. cbn [app].
  destruct HA as (Q & b & HA & Hb).
  destruct (collapse_snoc_blank Q b Hb) as (X & b1 & EX & Hb1).
  rewrite <- HA in EX. rewrite EX, <- app_assoc. cbn [app].
  exists X, b1, b2, (collapse true Z).
  split; [reflexivity|]. split; [exact Hb1|]. split; [exact Hb2|].
  split; [|split].
  - intros X' x ->. destruct (is_blank x) eqn:Hx; trivial.
    assert (H : has_adjacent_blank (collapse false A) = true).
    { apply has_adjacent_blank_spec. exists X', x, b1, [].
      rewrite EX, <- app_assoc. auto. }
    now rewrite collapse_no_adjacent_blank in H.
  - apply collapse_head.
  - rewrite <- HfA, <- (filter_collapse A false), EX, filter_app. cbn [filter].
    unfold non_blank at 3. now rewrite Hb1, app_nil_r.
Qed.

Lemma heading_isolated_witness :
  exists X b1 b2 Y,
    output_lines (doc ["Intro"; "# Title:"; "Some text"]%string)
    = X ++ b1 :: lit "# Title" :: b2 :: Y
    /\ is_blank b1 = true /\ is_blank b2 = true
    /\ (forall X' x, X = X' ++ [x] -> is_blank x = false)
    /\ next_test is_blank Y = false
    /\ length (filter non_blank X) = 1.
Proof.
  apply (heading_isolated (doc ["Intro"; "# Title:"; "Some text"]%string)
           [lit "Intro"] [lit "Some text"] (lit "# Title:"));
    [reflexivity|simpl; lia|simpl; lia|reflexivity|reflexivity].
Defined.

(** C3 as stated fails on a heading inside a code block: it is copied
    with the lines around it, and no blank line is put before or after. *)
Lemma heading_in_code_block_not_isolated :
  split_nl (doc ["```"; "# h"; "x"; "```"]%string)
  = [lit "```"] ++ lit "# h" :: [lit "x"; lit "```"]
  /\ is_heading (lit "# h") = true
  /\ output_lines (doc ["```"; "# h"; "x"; "```"]%string)
     = [lit "```"; lit "# h"; lit "x"; lit "```"]
  /\ ~ (exists X b1 b2 Y,
          output_lines (doc ["```"; "# h"; "x"; "```"]%string)
          = X ++ b1 :: lit "# h" :: b2 :: Y
          /\ is_blank b1 = true /\ is_blank b2 = true).
Proof.
  assert (Ho : output_lines (doc ["```"; "# h"; "x"; "```"]%string)
               = [lit "```"; lit "# h"; lit "x"; lit "```"])
    by (vm_compute; reflexivity).
  split; [reflexivity|]. split; [reflexivity|]. split; [exact Ho|].
  intros (X & b1 & b2 & Y & E & Hb1 & _). rewrite Ho in E.
  assert (Hin : In b1 [lit "```"; lit "# h"; lit "x"; lit "```"])
    by (rewrite E; apply in_elt).
  simpl in Hin.
  destruct Hin as [<-|[<-|[<-|[<-|[]]]]]; vm_compute in Hb1; discriminate.
Qed.

(** ** The program: wrong argument count *)

(** C8: when [sys.argv] does not hold exactly the program and one file
    path, the program prints the usage message on the standard output,
    ends with exit status 1 and opens no file, for reading or for writing:
    every file is as it was. *)
Theorem wrong_argument_count (argv : list str) (w : world) :
  length argv <> 2 ->
  exit_status (fst (main argv w)) = 1
  /\ stdout (snd (main argv w)) = stdout w ++ [usage]
  /\ files (snd (main argv w)) = files w
  /\ file_ops (snd (main argv w)) = file_ops w.
Proof.
  intros H. unfold main.
  destruct (Nat.eqb_spec (length argv) 2) as [E|_]; [contradiction|].
  repeat split.
Qed.

Lemma wrong_argument_count_witness :
  let w := {| files := fun _ => Some (lit "# Title:");
              writable := fun _ => true; stdout := []; file_ops := [] |} in
  exit_status (fst (main [lit "fix_markdown.py"] w)) = 1
  /\ stdout (snd (main [lit "fix_markdown.py"] w)) = [usage]
  /\ files (snd (main [lit "fix_markdown.py"] w)) = files w
  /\ file_ops (snd (main [lit "fix_markdown.py"] w)) = [].
Proof.
  intros w. apply (wrong_argument_count [lit "fix_markdown.py"] w).
  simpl. lia.
Defined.

(** The run with one file path, for comparison: the file is read,
    formatted and written back. *)
Example main_one_file :
  let w := {| files := fun _ => Some (doc ["# Title:"; "Some text"]%string);
              writable := fun _ => true; stdout := []; file_ops := [] |} in
  let r := main [lit "fix_markdown.py"; lit "a.md"] w in
  exit_status (fst r) = 0
  /\ files (snd r) (lit "a.md") = Some (doc ["# Title"; ""; "Some text"]%string)
  /\ stdout (snd r) = [lit "Fixed markdown formatting in a.md"]
  /\ file_ops (snd r) = [OpenRead (lit "a.md"); OpenWrite (lit "a.md")].
Proof. vm_compute. repeat split. Qed.

(** ** Formatting twice *)

(** The line ends in two colons. *)
Definition ends_double_colon (line : str) : bool :=
  match rev line with
  | c1 :: c2 :: _ => (c1 =? COLON)%N && (c2 =? COLON)%N
  | _ => false
  end.

Lemma ends_double_colon_snoc (a : str) :
  ends_double_colon ((a ++ [COLON]) ++ [COLON]) = true.
Proof.
  unfold ends_double_colon. rewrite !rev_app_distr. reflexivity.
Qed.

(** With one colon at most at its end, a line loses nothing the second
    time. *)
Lemma sub_colon_twice (line : str) :
  no_newline line ->
  ends_double_colon line = false ->
  sub_colon (sub_colon line) = sub_colon line.
Proof.
  intros Hn Hd.
  destruct (sub_colon_cases line) as [E|[(a & E & Ea)|(a & E & _)]].
  - now rewrite !E.
  - rewrite Ea.
    destruct (sub_colon_cases a) as [E'|[(a' & E' & _)|(a' & E' & _)]]; trivial.
    + subst. now rewrite ends_double_colon_snoc in Hd.
    + exfalso. apply Hn. subst. apply in_or_app. left.
      apply in_or_app. right. right. now left.
  - exfalso. apply Hn. rewrite E. apply in_or_app. right. right. now left.
Qed.

(** The second run, which has read the output so far and stands after
    the line [p2], sees before it what the first run saw before it in the
    source, unless the first run has just put out a blank line. *)
Definition agree (prev : option str) (b : bool) (p2 : option str) : Prop :=
  prev_test non_blank p2 = negb b && prev_test non_blank prev
  /\ prev_test list_start_gap p2 = negb b && prev_test list_start_gap prev.

Lemma agree_blank (prev : option str) (x : str) :
  is_blank x = true -> agree prev true (Some x).
Proof.
  intros Hx. unfold agree, list_start_gap, non_blank. cbn [prev_test negb andb].
  rewrite Hx. cbn. now rewrite andb_false_r.
Qed.

Lemma agree_image (m : mode) (l : str) :
  non_blank l = true -> agree (Some l) false (Some (image m l)).
Proof.
  intros Hl. unfold agree. cbn [prev_test negb andb].
  destruct m; cbn [image]; auto.
  destruct (is_heading l) eqn:Hh; auto.
  pose proof (is_heading_sub_colon _ Hh) as Hh'.
  unfold list_start_gap.
  rewrite (is_heading_non_blank _ Hh), (is_heading_non_blank _ Hh').
  rewrite (is_heading_not_list_item _ Hh), (is_heading_not_list_item _ Hh').
  auto.
Qed.

Lemma agree_dropped (prev : option str) (p2 : option str) (l : str) :
  agree prev true p2 -> agree (Some l) true p2.
Proof. unfold agree. cbn [negb andb]. auto. Qed.

(** Reading one line in the main loop when nothing is to be added. *)
Lemma run_plain (x : str) (p : option str) (T : list str) :
  is_heading x = false -> is_fence x = false -> is_list_item x = false ->
  run Main p (x :: T) = x :: run Main (Some x) T.
Proof. intros H1 H2 H3. cbn [run]. now rewrite H1, H2, H3. Qed.

Lemma run_blank (x : str) (p : option str) (T : list str) :
  is_blank x = true -> run Main p (x :: T) = x :: run Main (Some x) T.
Proof.
  intros Hx. destruct (is_blank_plain _ Hx) as (H1 & H2 & H3).
  now apply run_plain.
Qed.

Lemma run_heading_settled (x : str) (p : option str) (T : list str) :
  is_heading x = true -> sub_colon x = x ->
  prev_test non_blank p = false -> next_test non_blank T = false ->
  run Main p (x :: T) = x :: run Main (Some x) T.
Proof. intros H1 H2 H3 H4. cbn [run]. now rewrite H1, H2, H3, H4. Qed.

Lemma run_fence_settled (x : str) (p : option str) (T : list str) :
  is_fence x = true -> prev_test non_blank p = false ->
  run Main p (x :: T) = x :: run InCode (Some x) T.
Proof.
  intros H1 H2. cbn [run].
  destruct (is_heading x) eqn:Hh;
    [apply is_heading_not_fence in Hh; congruence|].
  now rewrite H1, H2.
Qed.

Lemma run_list_settled (x : str) (p : option str) (T : list str) :
  is_heading x = false -> is_fence x = false -> is_list_item x = true ->
  prev_test list_start_gap p = false ->
  run Main p (x :: T) = x :: list_tail (Some x) T.
Proof. intros H1 H2 H3 H4. cbn [run]. now rewrite H1, H2, H3, H4. Qed.

(** The first line of what follows in the output is the next source
    line, when no blank line was put out last and the next source line is
    not one the main loop puts a blank line before. *)
Lemma collapse_run_head (m : mode) (p : option str) (n : str) (rest : list str) :
  (m = Main -> is_blank n = true) ->
  exists R', collapse false (run m p (n :: rest)) = n :: R'.
Proof.
  intros Hm. destruct m.
  - rewrite run_blank by auto. cbn [collapse]. rewrite Hm by reflexivity.
    cbn [app]. eauto.
  - cbn [run collapse]. destruct (is_blank n); cbn [app]; eauto.
  - cbn [run collapse]. destruct (is_blank n); cbn [app]; eauto.
Qed.

Lemma next_test_collapse_run (f : str -> bool) (m : mode) (p : option str)
  (rest : list str) :
  (m = Main -> next_test non_blank rest = false) ->
  next_test f (collapse false (run m p rest)) = next_test f rest.
Proof.
  intros Hm. destruct rest as [|n rest]; [reflexivity|].
  destruct (collapse_run_head m p n rest) as (R' & ->); [|reflexivity].
  intros ->. specialize (Hm eq_refl). cbn in Hm.
  unfold non_blank in Hm. now apply negb_false_iff in Hm.
Qed.

Lemma collapse_blank_if (b c : bool) (T : list str) :
  collapse b (blank_if c ++ T) = blank_if (c && negb b) ++ collapse (c || b) T.
Proof. destruct c, b; reflexivity. Qed.

Lemma run_blank_if (k : bool) (p : option str) (T : list str) :
  run Main p (blank_if k ++ T)
  = blank_if k ++ run Main (if k then Some [] else p) T.
Proof. destruct k; [now apply run_blank|reflexivity]. Qed.

Lemma collapse_fixed (ls : list str) :
  forall b,
    has_adjacent_blank ls = false ->
    (b = true -> next_test is_blank ls = false) ->
    collapse b ls = ls.
Proof.
  induction ls as [|x ls IH]; intros b Hadj Hb; [reflexivity|].
  assert (Hls : has_adjacent_blank ls = false).
  { destruct ls as [|y t]; [reflexivity|].
    change (has_adjacent_blank (x :: y :: t))
      with (is_blank x && is_blank y || has_adjacent_blank (y :: t)) in Hadj.
    now apply orb_false_elim in Hadj. }
  cbn [collapse]. destruct (is_blank x) eqn:Hx.
  - destruct b; [specialize (Hb eq_refl); cbn in Hb; congruence|].
    cbn [app]. f_equal. apply IH; trivial. intros _.
    destruct ls as [|y t]; [reflexivity|].
    change (has_adjacent_blank (x :: y :: t))
      with (is_blank x && is_blank y || has_adjacent_blank (y :: t)) in Hadj.
    apply orb_false_elim in Hadj. destruct Hadj as [Hxy _].
    rewrite Hx in Hxy. exact Hxy.
  - f_equal. apply IH; trivial. discriminate.
Qed.

Lemma is_heading_not_continuation (line : str) :
  is_heading line = true -> is_continuation line = false.
Proof.
  intros H. destruct (is_heading_hash _ H) as (t & ->). reflexivity.
Qed.

Lemma is_continuation_image (m : mode) (l : str) :
  is_continuation (image m l) = is_continuation l.
Proof.
  destruct m; trivial. cbn [image]. destruct (is_heading l) eqn:Hh; trivial.
  rewrite (is_heading_not_continuation _ Hh).
  apply is_heading_not_continuation, is_heading_sub_colon, Hh.
Qed.

(** What the main loop appends for a line under its cursor: the line, a
    blank line before it or not, and what it appends after it. *)
Lemma emit_main_image (prev : option str) (l : str) (rest : list str) :
  exists c tail, emit Main prev l rest = blank_if c ++ image Main l :: tail.
Proof.
  cbn [emit image]. destruct (is_heading l); [eauto|].
  destruct (is_fence l); [eauto|].
  destruct (is_list_item l); [eauto|]. now exists false, [].
Qed.

Lemma is_indented_image (m : mode) (l : str) :
  is_indented (image m l) = is_indented l.
Proof.
  destruct m; trivial. cbn [image]. destruct (is_heading l) eqn:Hh; trivial.
  pose proof (is_heading_not_continuation _ Hh) as H1.
  pose proof (is_heading_not_continuation _ (is_heading_sub_colon _ Hh)) as H2.
  unfold is_continuation in H1, H2.
  apply orb_false_elim in H1, H2. destruct H1 as [_ ->]. now destruct H2.
Qed.

(** The lines from the first one that is not blank. *)
Fixpoint skip_blank (ls : list str) : list str :=
  match ls with
  | l :: r => if is_blank l then skip_blank r else ls
  | [] => []
  end.

(** After a blank line, the next line of the output is the next source
    line that is not blank. *)
Lemma next_indented_after_blank (rest : list str) :
  forall p,
    next_test is_indented (skip_blank rest) = false ->
    next_test is_indented (collapse true (run Main p rest)) = false.
Proof.
  induction rest as [|z rest IH]; intros p; [reflexivity|].
  cbn [skip_blank]. destruct (is_blank z) eqn:Hb.
  - intros H. rewrite run_blank by exact Hb. cbn [collapse]. rewrite Hb.
    cbn [app]. now apply IH.
  - cbn [next_test]. intros H. rewrite run_step.
    destruct (emit_main_image p z rest) as (c & tail & ->).
    rewrite <- app_assoc, collapse_blank_if. cbn [negb]. rewrite andb_false_r.
    cbn [blank_if app]. rewrite collapse_non_blank.
    + cbn [next_test]. now rewrite is_indented_image.
    + rewrite non_blank_image. unfold non_blank. now rewrite Hb.
Qed.

(** After a blank line, a list item is read by the main loop as it is
    read inside a list. *)
Lemma run_list_item_either (p : option str) (T : list str) :
  next_test is_list_item T = true ->
  collapse true (run InList p T) = collapse true (run Main p T).
Proof.
  destruct T as [|z T]; [discriminate|]. cbn [next_test]. intros Hi.
  cbn [run].
  destruct (is_heading z) eqn:Hh;
    [apply is_heading_not_list_item in Hh; congruence|].
  destruct (is_fence z) eqn:Hf;
    [apply is_fence_not_list_item in Hf; congruence|].
  rewrite Hi, collapse_blank_if. cbn [negb]. rewrite andb_false_r, orb_true_r.
  reflexivity.
Qed.

(** Where a list ended in a blank line and the next line of the output,
    [T], does not start with two spaces: the second run may read a list
    item there as one more item of the list, and what it puts out is the
    same. *)
Lemma list_end_blank (p : option str) (T : list str) :
  next_test is_indented T = false ->
  collapse true (run Main p T) = T ->
  collapse true
    (run (if next_test is_continuation T then InList else Main) p T) = T
  /\ collapse true (list_tail p T) = T.
Proof.
  intros Hi HT. unfold list_tail.
  destruct (next_test is_continuation T) eqn:Hc.
  - assert (Hl : next_test is_list_item T = true).
    { destruct T as [|z T]; [discriminate|]. cbn [next_test] in *.
      unfold is_continuation in Hc. rewrite Hi, orb_false_r in Hc. exact Hc. }
    rewrite (run_list_item_either p T Hl). now split.
  - split; [exact HT|].
    rewrite collapse_blank_if. cbn [negb].
    now rewrite andb_false_r, orb_true_r.
Qed.

(** What the second run needs of a source line read in mode [m] and
    followed by [rest]: a heading under the cursor has one colon at most
    to lose, and after a blank line that is the last of a list the next
    line that is not blank does not start with two spaces. *)
Definition tidy_line (m : mode) (l : str) (rest : list str) : Prop :=
  (m = Main -> is_heading l = true -> sub_colon (sub_colon l) = sub_colon l)
  /\ (m = InList -> is_blank l = true ->
      next_test is_continuation rest = false ->
      next_test is_indented (skip_blank rest) = false).

Fixpoint tidy_from (m : mode) (ls : list str) : Prop :=
  match ls with
  | [] => True
  | l :: rest => tidy_line m l rest /\ tidy_from (next_mode m l rest) rest
  end.

(** The mode of the second run where the first run is in mode [m] and
    the output still to come is [O]: the same, except that blank lines of
    a list that the second loop dropped leave the second run to decide
    from the next line of the output whether the list goes on. *)
Definition mode2 (m : mode) (O : list str) : mode :=
  match m with
  | InList => if next_test is_continuation O then InList else Main
  | _ => m
  end.

(** The output for [rest], read in mode [m], comes out of a second run
    and a second collapse as it is, from any state of the first run and
    any state of the second that agrees with it. *)
Definition settled (m : mode) (rest : list str) : Prop :=
  forall prev b p2,
    agree prev b p2 ->
    (m = InList -> next_test is_continuation rest = true) ->
    collapse b (run (mode2 m (collapse b (run m prev rest))) p2
                  (collapse b (run m prev rest)))
    = collapse b (run m prev rest).

(** After a heading or a closing fence. *)
Lemma settled_after_block (l x : str) (rest : list str) (m : mode) :
  settled Main rest ->
  non_blank l = true ->
  x = image m l ->
  next_test non_blank
    (blank_if (next_test non_blank rest)
     ++ collapse (next_test non_blank rest) (run Main (Some l) rest)) = false
  /\ collapse false
       (run Main (Some x)
          (blank_if (next_test non_blank rest)
           ++ collapse (next_test non_blank rest) (run Main (Some l) rest)))
     = blank_if (next_test non_blank rest)
       ++ collapse (next_test non_blank rest) (run Main (Some l) rest).
Proof.
  intros HS Hl ->. unfold settled in HS. cbn [mode2] in HS.
  destruct (next_test non_blank rest) eqn:Hd; cbn [blank_if app].
  - split; [reflexivity|]. rewrite run_blank by reflexivity.
    cbn [collapse]. change (is_blank []) with true. cbn [app]. f_equal.
    apply (HS (Some l) true (Some [])); [now apply agree_blank|discriminate].
  - split.
    + rewrite next_test_collapse_run; auto.
    + apply (HS (Some l) false (Some (image m l)));
        [now apply agree_image|discriminate].
Qed.

Lemma agree_kept (l : str) :
  agree (Some l) (is_blank l) (Some l).
Proof.
  destruct (is_blank l) eqn:Hb; [now apply agree_blank|].
  apply (agree_image InList). unfold non_blank. now rewrite Hb.
Qed.

(** After a list item or a line that continues a list, which the second
    loop has kept. *)
Lemma settled_list_tail (l : str) (rest : list str) :
  settled (if next_test is_continuation rest then InList else Main) rest ->
  (is_blank l = true -> next_test is_continuation rest = false ->
   next_test is_indented (skip_blank rest) = false) ->
  collapse (is_blank l)
    (list_tail (Some l) (collapse (is_blank l) (list_tail (Some l) rest)))
  = collapse (is_blank l) (list_tail (Some l) rest).
Proof.
  intros HS Hend. unfold list_tail at 2 3.
  destruct (next_test is_continuation rest) eqn:Hc.
  - specialize (HS (Some l) (is_blank l) (Some l) (agree_kept l) (fun _ => Hc)).
    cbn [mode2] in HS.
    set (T := collapse (is_blank l) (run InList (Some l) rest)) in *.
    unfold list_tail.
    destruct (next_test is_continuation T) eqn:HT; [exact HS|].
    rewrite collapse_blank_if.
    destruct (is_blank l) eqn:Hb.
    + cbn [negb]. rewrite andb_false_r, orb_true_r. exact HS.
    + exfalso. unfold T in HT.
      destruct rest as [|c rest]; [discriminate|].
      destruct (collapse_run_head InList (Some l) c rest) as (R' & E);
        [discriminate|].
      rewrite E in HT. cbn in HT, Hc. congruence.
  - rewrite collapse_blank_if.
    destruct (is_blank l) eqn:Hb.
    + cbn [negb]. rewrite andb_false_r, orb_true_r. cbn [blank_if app].
      specialize (Hend eq_refl eq_refl).
      apply list_end_blank.
      * now apply next_indented_after_blank.
      * apply (HS (Some l) true (Some l));
          [now apply agree_blank|discriminate].
    + cbn [negb]. rewrite andb_true_r, orb_false_r.
      assert (Hl : non_blank l = true) by (unfold non_blank; now rewrite Hb).
      destruct (settled_after_block l l rest InList HS Hl eq_refl) as [Hn Hr].
      unfold list_tail.
      assert (HcT : next_test is_continuation
                      (blank_if (next_test non_blank rest)
                       ++ collapse (next_test non_blank rest)
                            (run Main (Some l) rest)) = false).
      { destruct (next_test non_blank rest) eqn:Hd; cbn [blank_if app].
        - reflexivity.
        - rewrite next_test_collapse_run; auto. }
      rewrite HcT, Hn. exact Hr.
Qed.

Lemma run_twice_lines (ls : list str) :
  forall m, tidy_from m ls -> settled m ls.
Proof.
  induction ls as [|l rest IH]; intros m Ht;
    [intros prev b p2 _ _; destruct m; reflexivity|].
  destruct Ht as [[Hcol Hend] Hrest].
  intros prev b p2 Ha Hm. pose proof Ha as [Ha1 Ha2].
  destruct m.
  - (* the main loop *)
    cbn [mode2]. cbn [next_mode] in Hrest.
    specialize (Hcol eq_refl).
    cbn [run]. destruct (is_heading l) eqn:Hh.
    + pose proof (is_heading_non_blank _ Hh) as Hl.
      pose proof (is_heading_sub_colon _ Hh) as Hh'.
      pose proof (is_heading_non_blank _ Hh') as Hl'.
      specialize (IH Main Hrest).
      rewrite collapse_blank_if, (collapse_non_blank _ _ _ Hl').
      rewrite collapse_blank_if. cbn [negb]. rewrite andb_true_r, orb_false_r.
      destruct (settled_after_block l (sub_colon l) rest Main IH Hl)
        as [Hn Hr]; [cbn [image]; now rewrite Hh|].
      rewrite andb_comm, <- Ha1, run_blank_if.
      rewrite run_heading_settled; auto.
      * rewrite collapse_blank_if, (collapse_non_blank _ _ _ Hl'), Hr.
        f_equal. rewrite Ha1. now destruct b, (prev_test non_blank prev).
      * destruct (prev_test non_blank p2) eqn:E; [reflexivity|exact E].
    + destruct (is_fence l) eqn:Hf.
      * pose proof (is_fence_non_blank _ Hf) as Hl.
        specialize (IH InCode Hrest). unfold settled in IH. cbn [mode2] in IH.
        rewrite collapse_blank_if, (collapse_non_blank _ _ _ Hl).
        rewrite andb_comm, <- Ha1, run_blank_if.
        rewrite run_fence_settled; auto.
        -- rewrite collapse_blank_if, (collapse_non_blank _ _ _ Hl).
           rewrite (IH (Some l) false (Some l));
             [|apply (agree_image InCode _ Hl)|discriminate].
           f_equal. rewrite Ha1. now destruct b, (prev_test non_blank prev).
        -- destruct (prev_test non_blank p2) eqn:E; [reflexivity|exact E].
      * destruct (is_list_item l) eqn:Hi.
        -- pose proof (is_list_item_non_blank _ Hi) as Hl.
           assert (Hb : is_blank l = false)
             by (unfold non_blank in Hl; now apply negb_true_iff in Hl).
           specialize (IH _ Hrest).
           fold (list_tail (Some l) rest).
           rewrite collapse_blank_if, (collapse_non_blank _ _ _ Hl).
           rewrite andb_comm, <- Ha2, run_blank_if.
           rewrite run_list_settled; auto.
           ++ rewrite collapse_blank_if, (collapse_non_blank _ _ _ Hl).
              pose proof (settled_list_tail l rest IH) as Hlt.
              rewrite Hb in Hlt. rewrite Hlt by discriminate.
              f_equal. rewrite Ha2.
              now destruct b, (prev_test list_start_gap prev).
           ++ destruct (prev_test list_start_gap p2) eqn:E;
                [reflexivity|exact E].
        -- specialize (IH Main Hrest). unfold settled in IH. cbn [mode2] in IH.
           cbn [collapse]. destruct (is_blank l) eqn:Hb.
           ++ destruct b; cbn [app].
              ** apply (IH (Some l) true p2);
                   [now apply (agree_dropped prev)|discriminate].
              ** rewrite run_blank by exact Hb. cbn [collapse].
                 rewrite Hb. cbn [app]. f_equal.
                 apply (IH (Some l) true (Some l));
                   [now apply agree_blank|discriminate].
           ++ rewrite run_plain by assumption. cbn [collapse]. rewrite Hb.
              f_equal.
              apply (IH (Some l) false (Some l)); [|discriminate].
              apply (agree_image InCode). unfold non_blank. now rewrite Hb.
  - (* inside a code block *)
    cbn [mode2]. cbn [next_mode] in Hrest.
    cbn [run]. destruct (is_close_fence l) eqn:Hc.
    + pose proof (is_fence_non_blank _ (is_close_fence_is_fence _ Hc)) as Hl.
      specialize (IH Main Hrest).
      rewrite (collapse_non_blank _ _ _ Hl), collapse_blank_if.
      cbn [negb]. rewrite andb_true_r, orb_false_r.
      destruct (settled_after_block l l rest InCode IH Hl eq_refl) as [Hn Hr].
      cbn [run]. rewrite Hc, Hn. cbn [blank_if app].
      now rewrite (collapse_non_blank _ _ _ Hl), Hr.
    + specialize (IH InCode Hrest). unfold settled in IH. cbn [mode2] in IH.
      cbn [collapse]. destruct (is_blank l) eqn:Hb.
      * destruct b; cbn [app].
        -- apply (IH (Some l) true p2);
             [now apply (agree_dropped prev)|discriminate].
        -- cbn [run]. rewrite Hc. cbn [collapse]. rewrite Hb. cbn [app].
           f_equal.
           apply (IH (Some l) true (Some l));
             [now apply agree_blank|discriminate].
      * cbn [run]. rewrite Hc. cbn [collapse]. rewrite Hb. f_equal.
        apply (IH (Some l) false (Some l)); [|discriminate].
        apply (agree_image InCode). unfold non_blank. now rewrite Hb.
  - (* inside a list *)
    specialize (Hm eq_refl). cbn [next_test] in Hm.
    specialize (Hend eq_refl).
    cbn [next_mode] in Hrest. specialize (IH _ Hrest).
    pose proof (settled_list_tail l rest IH Hend) as Hlt.
    cbn [run]. fold (list_tail (Some l) rest).
    cbn [collapse]. destruct (is_blank l) eqn:Hb.
    + destruct b; cbn [app].
      * (* the line is dropped *)
        clear Hlt. unfold list_tail.
        destruct (next_test is_continuation rest) eqn:Hc.
        -- apply (IH (Some l) true p2);
             [now apply (agree_dropped prev)|auto].
        -- specialize (Hend eq_refl eq_refl).
           unfold settled in IH. cbn [mode2] in IH.
           rewrite collapse_blank_if. cbn [negb].
           rewrite andb_false_r, orb_true_r. cbn [blank_if app mode2].
           apply list_end_blank.
           ++ now apply next_indented_after_blank.
           ++ apply (IH (Some l) true p2);
                [now apply (agree_dropped prev)|discriminate].
      * cbn [mode2 next_test]. rewrite Hm.
        cbn [run].
        fold (list_tail (Some l) (collapse true (list_tail (Some l) rest))).
        cbn [collapse]. rewrite Hb. cbn [app]. f_equal. exact Hlt.
    + cbn [mode2 next_test]. rewrite Hm.
      cbn [run].
      fold (list_tail (Some l) (collapse false (list_tail (Some l) rest))).
      cbn [collapse]. rewrite Hb. f_equal. exact Hlt.
Qed.

(** *** The lines of a list, from the source *)

(** The indices [j] of the lines that the list branch of the main loop
    appends in its [while] loop: the lines that continue a list. *)
Fixpoint list_trace (fuel : nat) (lines : list str) (i : nat) : list nat :=
  if length lines <=? i then []
  else match fuel with
       | 0 => []
       | S fuel' =>
           (if is_list_item (line_at lines i)
            then seq (i + 1) (fst (scan_list (skipn (i + 1) lines) i []) - i)
            else [])
           ++ list_trace fuel' lines (fst (loop_body lines i []))
       end.

(** Line [k] continues a list: the list branch appends it and the cursor
    jumps over it. *)
Definition in_list (lines : list str) (k : nat) : bool :=
  existsb (Nat.eqb k) (list_trace (length lines) lines 0).

(** The indices read inside a list. *)
Fixpoint list_positions (m : mode) (ls : list str) : list nat :=
  match ls with
  | [] => []
  | l :: rest =>
      (match m with InList => [0] | _ => [] end)
      ++ List.map S (list_positions (next_mode m l rest) rest)
  end.

Lemma list_positions_mode_at (ls : list str) :
  forall m k,
    In k (list_positions m ls) <-> k < length ls /\ mode_at m ls k = InList.
Proof.
  induction ls as [|l rest IH]; intros m k; simpl.
  - split; [intros []|]. intros [H _]. lia.
  - rewrite in_app_iff, in_map_iff. split.
    + intros [H|(k' & <- & H)].
      * destruct m; simpl in H; try tauto.
        destruct H as [<-|[]]. split; [lia|reflexivity].
      * apply IH in H. destruct H as [H1 H2]. split; [lia|exact H2].
    + intros [Hk Hm]. destruct k as [|k'].
      * left. simpl in Hm. subst m. now left.
      * right. exists k'. split; trivial. apply IH. split; [lia|exact Hm].
Qed.

Lemma list_positions_in_code (rest : list str) :
  list_positions InCode rest
  = List.map (Nat.add (S (open_lines rest)))
      (list_positions Main (skipn (S (open_lines rest)) rest)).
Proof.
  induction rest as [|l r IH]; [reflexivity|].
  cbn [list_positions next_mode open_lines app].
  destruct (is_close_fence l).
  - cbn [skipn]. apply map_ext. reflexivity.
  - rewrite IH, map_map. cbn [skipn]. apply map_ext. intros. lia.
Qed.

Lemma list_positions_list_tail (rest : list str) :
  list_positions (if next_test is_continuation rest then InList else Main) rest
  = seq 0 (length (list_lines rest))
    ++ List.map (Nat.add (length (list_lines rest)))
         (list_positions Main (after_list rest)).
Proof.
  induction rest as [|l r IH]; [reflexivity|].
  cbn [next_test list_lines after_list].
  destruct (is_continuation l).
  - cbn [list_positions next_mode app length seq]. f_equal.
    rewrite IH, map_app, seq_shift, map_map. f_equal.
  - cbn [length seq app]. rewrite map_id. reflexivity.
Qed.

Lemma map_add_seq (a n : nat) :
  forall b, List.map (Nat.add a) (seq b n) = seq (a + b) n.
Proof.
  induction n as [|n IH]; intros b; [reflexivity|].
  cbn [seq List.map]. f_equal. rewrite IH. f_equal. lia.
Qed.

Lemma list_trace_done (fuel : nat) (lines : list str) (i : nat) :
  length lines <= i -> list_trace fuel lines i = [].
Proof.
  intros H. destruct fuel; simpl;
    destruct (Nat.leb_spec (length lines) i); trivial; lia.
Qed.

Lemma list_trace_run (fuel : nat) :
  forall pre rest,
    length rest <= fuel ->
    list_trace fuel (pre ++ rest) (length pre)
    = List.map (Nat.add (length pre)) (list_positions Main rest).
Proof.
  induction fuel as [|fuel IH]; intros pre rest Hfuel.
  - destruct rest; [|simpl in Hfuel; lia].
    now rewrite list_trace_done by (rewrite length_app; simpl; lia).
  - destruct rest as [|l rest].
    + now rewrite list_trace_done by (rewrite length_app; simpl; lia).
    + cbn [list_trace].
      destruct (Nat.leb_spec (length (pre ++ l :: rest)) (length pre)) as [H|_];
        [rewrite length_app in H; simpl in H; lia|].
      destruct (loop_body_run pre rest l []) as (out & -> & _).
      rewrite line_at_cursor, skipn_cursor, scan_list_spec.
      cbn [fst list_positions app]. simpl in Hfuel.
      assert (Htail :
        list_trace fuel (pre ++ l :: rest) (length pre + 1 + taken l rest)
        = List.map (Nat.add (length pre))
            (List.map S
               (List.map (Nat.add (taken l rest))
                  (list_positions Main (skipn (taken l rest) rest))))).
      { rewrite !map_map.
        generalize (taken l rest) as n. intros n.
        destruct (Nat.le_gt_cases n (length rest)) as [Hn|Hn].
        - rewrite <- (firstn_skipn n rest) at 1.
          replace (pre ++ l :: firstn n rest ++ skipn n rest)
            with ((pre ++ l :: firstn n rest) ++ skipn n rest)
            by (rewrite <- app_assoc; reflexivity).
          replace (length pre + 1 + n)
            with (length (pre ++ l :: firstn n rest))
            by (rewrite length_app; simpl; rewrite length_firstn; lia).
          rewrite IH by (rewrite length_skipn; lia).
          apply map_ext. intros a. rewrite length_app. simpl.
          rewrite length_firstn. lia.
        - rewrite list_trace_done by (rewrite length_app; simpl; lia).
          now rewrite skipn_all2 by lia. }
      rewrite Htail. clear Htail.
      unfold taken. cbn [next_mode].
      destruct (is_heading l) eqn:Hh.
      * rewrite (is_heading_not_list_item _ Hh).
        cbn [skipn app]. rewrite !map_map. apply map_ext. intros. lia.
      * destruct (is_fence l) eqn:Hf.
        -- rewrite (is_fence_not_list_item _ Hf). cbn [app].
           now rewrite list_positions_in_code.
        -- destruct (is_list_item l).
           ++ rewrite list_positions_list_tail, skipn_list_lines.
              rewrite !map_app. f_equal.
              replace (length pre + length (list_lines rest) - length pre)
                with (length (list_lines rest)) by lia.
              now rewrite seq_shift, map_add_seq.
           ++ cbn [skipn app]. rewrite !map_map. apply map_ext. intros. lia.
Qed.

(** The list branch appends line [k] exactly when [run] reads it in
    [InList]. *)
Lemma in_list_mode (lines : list str) (k : nat) :
  in_list lines k = true <-> k < length lines /\ mode_at Main lines k = InList.
Proof.
  unfold in_list.
  pose proof (list_trace_run (length lines) [] lines (le_n _)) as E.
  cbn [length app] in E. rewrite E, map_id, <- list_positions_mode_at.
  rewrite existsb_exists. split.
  - intros (x & Hx & Hk). apply Nat.eqb_eq in Hk. now subst.
  - intros H. exists k. split; [exact H|apply Nat.eqb_refl].
Qed.

(** *** The two conditions *)

(** No heading that is the line under the cursor of the main loop in
    some iteration ends in two colons. *)
Definition cursor_headings_single_colon (lines : list str) : bool :=
  forallb
    (fun k =>
       negb (at_cursor lines k
             && is_heading (line_at lines k)
             && ends_double_colon (line_at lines k)))
    (seq 0 (length lines)).

(** Where a list ends in a line of white space (a line that continues
    the list, is blank, and is not followed by a line that continues the
    list), the next line that is not blank does not start with two
    spaces. *)
Definition lists_end_clean (lines : list str) : bool :=
  forallb
    (fun k =>
       negb (in_list lines k
             && is_blank (line_at lines k)
             && negb (next_test is_continuation (skipn (S k) lines))
             && next_test is_indented (skip_blank (skipn (S k) lines))))
    (seq 0 (length lines)).

Lemma tidy_from_positions (ls : list str) :
  forall m,
    (forall k, k < length ls ->
               tidy_line (mode_at m ls k) (line_at ls k) (skipn (S k) ls)) ->
    tidy_from m ls.
Proof.
  induction ls as [|l rest IH]; intros m H; [exact I|].
  split.
  - apply (H 0). simpl. lia.
  - apply IH. intros k Hk. apply (H (S k)). simpl. lia.
Qed.

Lemma line_at_in (lines : list str) (k : nat) :
  k < length lines -> In (line_at lines k) lines.
Proof. intros H. now apply nth_In. Qed.

Lemma tidy_lines (lines : list str) :
  Forall no_newline lines ->
  cursor_headings_single_colon lines = true ->
  lists_end_clean lines = true ->
  tidy_from Main lines.
Proof.
  intros Hn H1 H2. unfold cursor_headings_single_colon in H1.
  unfold lists_end_clean in H2. rewrite forallb_forall in H1, H2.
  apply tidy_from_positions. intros k Hk.
  assert (Hin : In k (seq 0 (length lines))) by (apply in_seq; lia).
  specialize (H1 k Hin). specialize (H2 k Hin).
  apply negb_true_iff in H1, H2.
  split.
  - intros Hm Hh.
    assert (Hc : at_cursor lines k = true) by (apply at_cursor_mode; now split).
    rewrite Hc, Hh in H1. cbn [andb] in H1.
    apply sub_colon_twice; trivial.
    rewrite Forall_forall in Hn. now apply Hn, line_at_in.
  - intros Hm Hb Hc.
    assert (Hl : in_list lines k = true) by (apply in_list_mode; now split).
    rewrite Hl, Hb, Hc in H2. exact H2.
Qed.

(** C1, as the code has it: formatting twice is formatting once on every
    document in which no heading that the main loop reads ends in two
    colons and, where a list ends in a line of white space, the next line
    that is not blank does not start with two spaces. *)
Theorem format_twice (content : str) :
  cursor_headings_single_colon (split_nl content) = true ->
  lists_end_clean (split_nl content) = true ->
  fix_markdown_formatting (fix_markdown_formatting content)
  = fix_markdown_formatting content.
Proof.
  intros H1 H2.
  unfold fix_markdown_formatting at 1.
  fold (output_lines content). rewrite output_lines_run.
  unfold fix_markdown_formatting. rewrite !format_lines_run. f_equal.
  assert (Ht : tidy_from Main (split_nl content))
    by (apply tidy_lines; trivial; apply split_nl_no_newline).
  apply (run_twice_lines (split_nl content) Main Ht None false None).
  - now split.
  - discriminate.
Qed.

Lemma format_twice_witness :
  fix_markdown_formatting
    (fix_markdown_formatting
       (doc ["# Title:"; "para"; "  "; "more"; "```"; "# T::"; "```";
             "- a"; "  "; "x"; "- b"; "  "; ""; "- c"]%string))
  = fix_markdown_formatting
      (doc ["# Title:"; "para"; "  "; "more"; "```"; "# T::"; "```";
            "- a"; "  "; "x"; "- b"; "  "; ""; "- c"]%string).
Proof.
  exact (format_twice
           (doc ["# Title:"; "para"; "  "; "more"; "```"; "# T::"; "```";
                 "- a"; "  "; "x"; "- b"; "  "; ""; "- c"]%string)
           eq_refl eq_refl).
Defined.

(** The two conditions look at lines where they matter only: a line of
    white space outside a list, a heading-shaped line inside a code block
    and a list that ends in a line of white space before a line that is
    not blank all pass. *)
Example format_twice_conditions :
  List.map
    (fun d => cursor_headings_single_colon (split_nl d)
              && lists_end_clean (split_nl d))
    [doc ["para"; "  "; "more"]%string;
     doc ["```"; "# T::"; "```"]%string;
     doc ["- a"; "  "; "x"]%string;
     doc ["- a"; "  "; ""; "x"]%string;
     doc ["- a"; "  "; ""; "- b"]%string;
     doc ["# T::"]%string;
     doc ["- a"; "  "; ""; "  x"; "x"]%string]
  = [true; true; true; true; true; false; false].
Proof. vm_compute. reflexivity. Qed.

(** C1 as stated fails on a heading that ends in two colons: each run
    takes one of them. *)
Lemma format_twice_differs :
  fix_markdown_formatting (lit "# T::") = lit "# T:"
  /\ fix_markdown_formatting (fix_markdown_formatting (lit "# T::")) = lit "# T"
  /\ fix_markdown_formatting (fix_markdown_formatting (lit "# T::"))
     <> fix_markdown_formatting (lit "# T::").
Proof.
  split; [vm_compute; reflexivity|]. split; [vm_compute; reflexivity|].
  vm_compute. discriminate.
Qed.

(** It fails as well on a list with a line of white space in it: the
    second loop drops the blank line that ended the list, and the second
    run reads the list further. *)
Example format_twice_differs_list :
  output_lines (doc ["- a"; "  "; ""; "  x"; "x"]%string)
  = [lit "- a"; lit "  "; lit "  x"; lit "x"]
  /\ output_lines
       (fix_markdown_formatting (doc ["- a"; "  "; ""; "  x"; "x"]%string))
     = [lit "- a"; lit "  "; lit "  x"; lit ""; lit "x"].
Proof. split; vm_compute; reflexivity. Qed.

(** ** Further properties of the main loop *)

Lemma split_at_cursor (lines : list str) (i : nat) :
  i < length lines ->
  lines = firstn i lines ++ line_at lines i :: skipn (S i) lines
  /\ length (firstn i lines) = i.
Proof.
  intros Hi. split; [|rewrite length_firstn; lia].
  rewrite <- (firstn_skipn i lines) at 1. f_equal.
  destruct (skipn i lines) as [|x t] eqn:E.
  - apply (f_equal (@length str)) in E. rewrite length_skipn in E.
    simpl in E. lia.
  - f_equal.
    + apply (f_equal (fun l => nth 0 l [])) in E. simpl in E.
      rewrite <- E, nth_skipn. unfold line_at. f_equal. lia.
    + apply (f_equal (skipn 1)) in E. rewrite skipn_skipn in E.
      symmetry. exact E.
Qed.

(** Every iteration of the main loop leaves the cursor further on than it
    found it, whatever has been appended so far; this is why the loop
    ends. *)
Theorem loop_body_advances (lines : list str) (i : nat) (fixed_lines : list str) :
  i < length lines ->
  i < fst (loop_body lines i fixed_lines).
Proof.
  intros Hi. destruct (split_at_cursor lines i Hi) as [E Hlen].
  destruct (loop_body_run (firstn i lines) (skipn (S i) lines)
              (line_at lines i) fixed_lines) as (out & Hb & _).
  rewrite <- E, Hlen in Hb. rewrite Hb. cbn [fst]. lia.
Qed.

Lemma loop_body_advances_witness :
  1 < fst (loop_body (List.map lit ["Para"; "```"; "code"; "```"; "More"]%string)
             1 [lit "Para"]).
Proof.
  apply (loop_body_advances
           (List.map lit ["Para"; "```"; "code"; "```"; "More"]%string)
           1 [lit "Para"]).
  simpl. lia.
Defined.

(** The main loop returns within [len(lines)] iterations, and what it
    returns does not depend on how many more it is allowed. *)
Theorem main_loop_terminates (lines : list str) (fuel : nat) :
  length lines <= fuel ->
  exists fixed_lines,
    main_loop fuel lines 0 [] = Some fixed_lines
    /\ main_loop (length lines) lines 0 [] = Some fixed_lines.
Proof.
  intros H. exists (run Main None lines). split.
  - now apply main_loop_total.
  - apply main_loop_total, le_n.
Qed.

Lemma main_loop_terminates_witness :
  exists fixed_lines,
    main_loop 7 (List.map lit ["- a"; "  b"; "x"]%string) 0 [] = Some fixed_lines
    /\ main_loop 3 (List.map lit ["- a"; "  b"; "x"]%string) 0 []
       = Some fixed_lines.
Proof.
  apply (main_loop_terminates (List.map lit ["- a"; "  b"; "x"]%string) 7).
  simpl. lia.
Defined.

(** Where the cursor stops: before the first fence of the document, the
    only lines the loop jumps over are those of a list. *)
Lemma mode_before_fence (pre : list str) (l : str) (post : list str) :
  forallb (fun x => negb (is_fence x)) pre = true ->
  forall m,
    m = Main \/ (m = InList /\ next_test is_continuation (pre ++ l :: post) = true) ->
    is_continuation l = false ->
    mode_at m (pre ++ l :: post) (length pre) = Main.
Proof.
  induction pre as [|x pre IH]; intros Hf m Hm Hl.
  - cbn [app length mode_at] in *. destruct Hm as [->|[_ Hc]]; trivial.
    cbn in Hc. congruence.
  - cbn [forallb] in Hf. apply andb_prop in Hf. destruct Hf as [Hx Hf].
    apply negb_true_iff in Hx.
    cbn [app length mode_at]. apply IH; trivial.
    assert (Hnext : forall rest,
               (if next_test is_continuation rest then InList else Main) = Main
               \/ ((if next_test is_continuation rest then InList else Main) = InList
                   /\ next_test is_continuation rest = true)).
    { intros rest. destruct (next_test is_continuation rest); auto. }
    destruct Hm as [->|[-> _]]; cbn [next_mode].
    + destruct (is_heading x); [now left|]. rewrite Hx.
      destruct (is_list_item x); [apply Hnext|now left].
    + apply Hnext.
Qed.

(** A line that does not start with "- " or with two spaces and that no
    fence line precedes is read by the main loop: the cursor stops on
    it. *)
Theorem at_cursor_before_fence (pre post : list str) (l : str) :
  forallb (fun x => negb (is_fence x)) pre = true ->
  is_continuation l = false ->
  at_cursor (pre ++ l :: post) (length pre) = true.
Proof.
  intros Hf Hl. apply at_cursor_mode. split.
  - rewrite length_app. simpl. lia.
  - apply mode_before_fence; auto.
Qed.

Lemma at_cursor_before_fence_witness :
  at_cursor (List.map lit ["- a"; "  b"; "# h"; "x"]%string) 2 = true.
Proof.
  exact (at_cursor_before_fence
           [lit "- a"; lit "  b"] [lit "x"] (lit "# h") eq_refl eq_refl).
Defined.

(** ** Further properties of the output *)

Lemma emit_provenance (m : mode) (prev : option str) (l : str)
  (rest : list str) (x : str) :
  In x (emit m prev l rest) ->
  x = [] \/ x = l \/ (is_heading l = true /\ x = sub_colon l).
Proof.
  assert (Hb : forall b, In x (blank_if b) -> x = []).
  { intros [] H; simpl in H; [|tauto]. destruct H as [H|[]]. now symmetry. }
  assert (Hc : forall (c : bool) b,
             In x (if c then [] else blank_if b) -> x = []).
  { intros [] b H; [destruct H|now apply Hb in H]. }
  destruct m; cbn [emit].
  - destruct (is_heading l) eqn:Hh.
    + rewrite in_app_iff. cbn [In]. intros [H|[H|H]].
      * left. now apply Hb in H.
      * right; right. split; [reflexivity|now symmetry].
      * left. now apply Hb in H.
    + destruct (is_fence l).
      * rewrite in_app_iff. cbn [In]. intros [H|[H|[]]].
        -- left. now apply Hb in H.
        -- right; left. now symmetry.
      * destruct (is_list_item l).
        -- rewrite in_app_iff. cbn [In]. intros [H|[H|H]].
           ++ left. now apply Hb in H.
           ++ right; left. now symmetry.
           ++ left. now apply Hc in H.
        -- cbn [In]. intros [H|[]]. right; left. now symmetry.
  - cbn [In]. intros [H|H]; [right; left; now symmetry|left].
    destruct (is_close_fence l); [now apply Hb in H|destruct H].
  - cbn [In]. intros [H|H]; [right; left; now symmetry|left].
    now apply Hc in H.
Qed.

Lemma run_provenance (ls : list str) (x : str) :
  forall m prev,
    In x (run m prev ls) ->
    x = [] \/ In x ls \/ (exists l, In l ls /\ is_heading l = true /\ x = sub_colon l).
Proof.
  induction ls as [|l rest IH]; intros m prev; [intros []|].
  rewrite run_step, in_app_iff. intros [H|H].
  - apply emit_provenance in H. destruct H as [H|[H|[Hh H]]].
    + now left.
    + right; left. now left.
    + right; right. exists l. split; [now left|now split].
  - apply IH in H. destruct H as [H|[H|(l' & Hl' & Hh & H)]].
    + now left.
    + right; left. now right.
    + right; right. exists l'. split; [now right|now split].
Qed.

(** The formatter writes no text of its own: a line of the output is
    empty, or a line of the input, or a heading of the input without the
    colon it ended in. *)
Theorem output_line_provenance (content : str) (x : str) :
  In x (output_lines content) ->
  x = []
  \/ In x (split_nl content)
  \/ (exists l, In l (split_nl content) /\ is_heading l = true
                /\ l = x ++ [COLON]).
Proof.
  rewrite output_lines_run. intros H. apply collapse_incl in H.
  apply run_provenance in H. destruct H as [H|[H|(l & Hl & Hh & ->)]]; auto.
  pose proof (split_nl_no_newline content) as Hn.
  rewrite Forall_forall in Hn. specialize (Hn l Hl).
  destruct (sub_colon_cases l) as [E|[(a & E & Ea)|(a & E & _)]].
  - right; left. now rewrite E.
  - right; right. exists l. rewrite Ea. auto.
  - exfalso. apply Hn. rewrite E. apply in_or_app. right. right. now left.
Qed.

Lemma output_line_provenance_witness :
  lit "# Title" = []
  \/ In (lit "# Title") (split_nl (doc ["# Title:"; "Some text"]%string))
  \/ (exists l, In l (split_nl (doc ["# Title:"; "Some text"]%string))
                /\ is_heading l = true /\ l = lit "# Title" ++ [COLON]).
Proof.
  apply (output_line_provenance (doc ["# Title:"; "Some text"]%string)
           (lit "# Title")).
  vm_compute. left. reflexivity.
Defined.

Lemma collapse_false_cons (l : str) (X : list str) :
  exists Y, collapse false (l :: X) = l :: Y.
Proof. cbn [collapse]. destruct (is_blank l); cbn [app]; eauto. Qed.

(** The first line of the output is the first line of the input, without
    its trailing colon when it is a heading: nothing is put above it. *)
Theorem first_line_stays_first (content : str) (l : str) (rest : list str) :
  split_nl content = l :: rest ->
  exists Y,
    output_lines content = (if is_heading l then sub_colon l else l) :: Y.
Proof.
  intros E. rewrite output_lines_run, E. cbn [run prev_test blank_if app].
  destruct (is_heading l); [apply collapse_false_cons|].
  destruct (is_fence l); [apply collapse_false_cons|].
  destruct (is_list_item l); apply collapse_false_cons.
Qed.

Lemma first_line_stays_first_witness :
  exists Y,
    output_lines (doc ["# Title:"; "Some text"]%string)
    = lit "# Title" :: Y.
Proof.
  exact (first_line_stays_first (doc ["# Title:"; "Some text"]%string)
           (lit "# Title:") [lit "Some text"] eq_refl).
Defined.

Lemma emit_last_line (m : mode) (prev : option str) (l : str) :
  exists b, emit m prev l [] = blank_if b ++ [image m l].
Proof.
  destruct m; cbn [emit image next_test blank_if].
  - destruct (is_heading l); [eauto|].
    destruct (is_fence l); [eauto|].
    destruct (is_list_item l); [eauto|]. now exists false.
  - exists false. now destruct (is_close_fence l).
  - now exists false.
Qed.

(** When the last line of the input is not blank, it is the last line of
    the output (a heading that the main loop reads, without its trailing
    colon): nothing is put below it. *)
Theorem last_line_stays_last (content : str) (pre : list str) (l : str) :
  split_nl content = pre ++ [l] ->
  non_blank l = true ->
  exists X l',
    output_lines content = X ++ [l'] /\ unchanged_or_colon_removed l l'.
Proof.
  intros E Hl. rewrite output_lines_run, E, run_app.
  set (m := mode_at Main (pre ++ [l]) (length pre)).
  set (p := prev_of None pre).
  rewrite run_step. cbn [run]. rewrite app_nil_r.
  destruct (emit_last_line m p l) as (b & ->).
  rewrite !app_assoc, collapse_app.
  cbn [collapse].
  assert (Hi : non_blank (image m l) = true) by now rewrite non_blank_image.
  unfold non_blank in Hi. apply negb_true_iff in Hi. rewrite Hi.
  eexists _, (image m l). split; [reflexivity|].
  apply same_or_colon_removed_no_newline.
  - pose proof (split_nl_no_newline content) as Hn. rewrite E in Hn.
    rewrite Forall_forall in Hn. apply Hn, in_or_app. right. now left.
  - apply image_same_or_colon_removed.
Qed.

Lemma last_line_stays_last_witness :
  exists X l',
    output_lines (doc ["Some text"; "# End:"]%string) = X ++ [l']
    /\ unchanged_or_colon_removed (lit "# End:") l'.
Proof.
  exact (last_line_stays_last (doc ["Some text"; "# End:"]%string)
           [lit "Some text"] (lit "# End:") eq_refl eq_refl).
Defined.

(** A line that is no heading, no fence and no list item. *)
Definition is_plain (l : str) : bool :=
  negb (is_heading l) && negb (is_fence l) && negb (is_list_item l).

Lemma run_plain_lines (ls : list str) :
  forallb is_plain ls = true -> forall prev, run Main prev ls = ls.
Proof.
  induction ls as [|l rest IH]; intros H prev; [reflexivity|].
  cbn [forallb] in H. apply andb_prop in H. destruct H as [Hl H].
  unfold is_plain in Hl. apply andb_prop in Hl. destruct Hl as [Hl H3].
  apply andb_prop in Hl. destruct Hl as [H1 H2].
  apply negb_true_iff in H1, H2, H3.
  rewrite run_plain by assumption. now rewrite IH.
Qed.

(** On a document without headings, fences and list items the main loop
    changes nothing, and the output is the input with every run of blank
    lines cut down to its first line. *)
Theorem plain_document (content : str) :
  forallb is_plain (split_nl content) = true ->
  main_loop (length (split_nl content)) (split_nl content) 0 []
  = Some (split_nl content)
  /\ output_lines content = collapse_blank false (split_nl content) [].
Proof.
  intros H. rewrite main_loop_output, output_lines_run, collapse_blank_collapse.
  now rewrite (run_plain_lines _ H).
Qed.

Lemma plain_document_witness :
  main_loop 5 (split_nl (doc ["one"; ""; " "; ""; "two"]%string)) 0 []
  = Some (split_nl (doc ["one"; ""; " "; ""; "two"]%string))
  /\ output_lines (doc ["one"; ""; " "; ""; "two"]%string)
     = collapse_blank false
         (split_nl (doc ["one"; ""; " "; ""; "two"]%string)) [].
Proof.
  exact (plain_document (doc ["one"; ""; " "; ""; "two"]%string) eq_refl).
Defined.

(** A document without headings, fences, list items and runs of blank
    lines is returned as it is. *)
Theorem plain_document_unchanged (content : str) :
  forallb is_plain (split_nl content) = true ->
  has_adjacent_blank (split_nl content) = false ->
  fix_markdown_formatting content = content.
Proof.
  intros H1 H2. unfold fix_markdown_formatting.
  rewrite format_lines_run, (run_plain_lines _ H1).
  rewrite collapse_fixed by (trivial; discriminate).
  apply join_split.
Qed.

Lemma plain_document_unchanged_witness :
  fix_markdown_formatting (doc ["one:"; ""; "  two"; "#three"]%string)
  = doc ["one:"; ""; "  two"; "#three"]%string.
Proof.
  exact (plain_document_unchanged
           (doc ["one:"; ""; "  two"; "#three"]%string) eq_refl eq_refl).
Defined.

(** The second loop has nothing left to do on its own result. *)
Theorem collapse_blank_twice (fixed_lines : list str) :
  collapse_blank false (collapse_blank false fixed_lines [] ) []
  = collapse_blank false fixed_lines [].
Proof.
  rewrite !collapse_blank_collapse. cbn [app].
  apply collapse_fixed; [apply collapse_no_adjacent_blank|discriminate].
Qed.

(** ** Blank lines around code blocks and lists *)

(** A code block that the main loop reads, with lines before it and lines
    after it, stands in the output between two blank lines. *)
Theorem code_block_isolated (content : str) (pre body post : list str)
  (open close : str) :
  split_nl content = pre ++ open :: body ++ close :: post ->
  0 < length pre ->
  0 < length post ->
  at_cursor (split_nl content) (length pre) = true ->
  is_fence open = true ->
  forallb not_close_fence body = true ->
  is_close_fence close = true ->
  exists X b1 b2 Y,
    output_lines content
    = X ++ b1 :: open :: collapse false body ++ close :: b2 :: Y
    /\ is_blank b1 = true /\ is_blank b2 = true.
Proof.
  intros E Hpre Hpost Hc Hf Hb Hcl.
  pose proof (is_fence_non_blank _ Hf) as Ho.
  pose proof (is_fence_non_blank _ (is_close_fence_is_fence _ Hcl)) as Hcn.
  rewrite output_lines_run, E. rewrite E in Hc.
  apply at_cursor_mode in Hc. destruct Hc as [_ Hm].
  rewrite run_app, Hm. cbn [run].
  destruct (is_heading open) eqn:Hh;
    [apply is_heading_not_fence in Hh; congruence|].
  rewrite Hf, (run_code_body _ _ _ Hb Hcl), app_assoc.
  set (A := run_upto Main None pre (open :: body ++ close :: post)
            ++ blank_if (prev_test non_blank (prev_of None pre))).
  assert (HA : ends_blank A).
  { apply run_upto_ends_blank; trivial.
    destruct pre; [simpl in Hpre; lia|discriminate]. }
  destruct (run_after_heading_starts_blank post (Some close))
    as (b2 & Z & -> & Hb2).
  { destruct post; [simpl in Hpost; lia|discriminate]. }
  rewrite collapse_block by assumption.
  cbn [collapse]. rewrite Hb2. cbn [app].
  destruct HA as (Q & b & HA & HQ).
  destruct (collapse_snoc_blank Q b HQ) as (X & b1 & EX & Hb1).
  rewrite <- HA in EX. rewrite EX, <- app_assoc. cbn [app].
  exists X, b1, b2, (collapse true Z). auto.
Qed.

Lemma code_block_isolated_witness :
  exists X b1 b2 Y,
    output_lines (doc ["Para"; "```"; "# code:"; "```"; "More"]%string)
    = X ++ b1 :: lit "```" :: collapse false [lit "# code:"]
        ++ lit "```" :: b2 :: Y
    /\ is_blank b1 = true /\ is_blank b2 = true.
Proof.
  apply (code_block_isolated
           (doc ["Para"; "```"; "# code:"; "```"; "More"]%string)
           [lit "Para"] [lit "# code:"] [lit "More"] (lit "```") (lit "```"));
    [reflexivity|simpl; lia|simpl; lia|reflexivity|reflexivity|reflexivity
    |reflexivity].
Defined.

(** Before a list item that the main loop reads there is a blank line in
    [fixed_lines], once the loop has made up its mind about the blank line
    before the list. *)
Lemma run_upto_ends_blank_list (pre : list str) (h : str) (post : list str) :
  is_list_item h = true ->
  forall m prev,
    pre <> [] ->
    mode_at m (pre ++ h :: post) (length pre) = Main ->
    ends_blank (run_upto m prev pre (h :: post)
                ++ blank_if (prev_test list_start_gap (prev_of prev pre))).
Proof.
  intros Hh. induction pre as [|l pre IH]; intros m prev Hne Hm; [congruence|].
  destruct pre as [|l2 pre].
  - clear IH. cbn [run_upto app length mode_at prev_of fold_left prev_test] in *.
    rewrite app_nil_r.
    assert (Hn : next_test non_blank (h :: post) = true)
      by now apply is_list_item_non_blank.
    assert (Hc : next_test is_continuation (h :: post) = true)
      by (cbn; unfold is_continuation; now rewrite Hh).
    assert (Hbi : forall xs c, ends_blank xs -> ends_blank (xs ++ blank_if c)).
    { intros xs [] H; [apply ends_blank_blank_if|now rewrite app_nil_r]. }
    destruct m; cbn [emit next_mode] in *.
    + destruct (is_heading l).
      * rewrite Hn. apply Hbi, ends_blank_app.
        exists [sub_colon l], []. now split.
      * destruct (is_fence l); [discriminate|].
        destruct (is_list_item l) eqn:Hi.
        -- rewrite Hc in Hm. discriminate.
        -- unfold list_start_gap. rewrite Hi. cbn [negb andb].
           destruct (non_blank l) eqn:Hl; [apply ends_blank_blank_if|].
           exists [], l. split; [reflexivity|].
           unfold non_blank in Hl. now apply negb_false_iff in Hl.
    + destruct (is_close_fence l); [|discriminate].
      rewrite Hn. apply Hbi. exists [l], []. now split.
    + rewrite Hc in Hm. discriminate.
  - change (run_upto m prev (l :: l2 :: pre) (h :: post))
      with (emit m prev l ((l2 :: pre) ++ h :: post)
            ++ run_upto (next_mode m l ((l2 :: pre) ++ h :: post)) (Some l)
                 (l2 :: pre) (h :: post)).
    rewrite <- app_assoc. apply ends_blank_app.
    apply IH; [discriminate|exact Hm].
Qed.

Lemma list_lines_block (block post : list str) :
  forallb is_continuation block = true ->
  next_test is_continuation post = false ->
  list_lines (block ++ post) = block /\ after_list (block ++ post) = post.
Proof.
  intros Hb Hp. induction block as [|x block IH].
  - destruct post as [|n post]; [now split|].
    cbn in Hp. cbn [app list_lines after_list]. now rewrite Hp.
  - cbn [forallb] in Hb. apply andb_prop in Hb. destruct Hb as [Hx Hb].
    cbn [app list_lines after_list]. rewrite Hx.
    destruct (IH Hb) as [-> ->]. now split.
Qed.

Lemma collapse_non_blank_lines (ls : list str) :
  forallb non_blank ls = true ->
  forall b, collapse b ls = ls /\ (ls <> [] -> blank_after b ls = false).
Proof.
  induction ls as [|x ls IH]; intros H b; [split; [reflexivity|congruence]|].
  cbn [forallb] in H. apply andb_prop in H. destruct H as [Hx H].
  rewrite (collapse_non_blank _ _ _ Hx).
  unfold non_blank in Hx. apply negb_true_iff in Hx.
  destruct (IH H false) as [-> Hb]. split; [reflexivity|]. intros _.
  unfold blank_after in *. cbn [fold_left]. rewrite Hx.
  destruct ls; [reflexivity|]. apply Hb. discriminate.
Qed.

(** A list that the main loop reads, with lines before it and lines after
    it, stands in the output between two blank lines, its items and the
    lines that continue them as they are and with nothing between them,
    when none of these lines is blank. *)
Theorem list_isolated (content : str) (pre block post : list str) (item : str) :
  split_nl content = pre ++ item :: block ++ post ->
  0 < length pre ->
  0 < length post ->
  at_cursor (split_nl content) (length pre) = true ->
  is_list_item item = true ->
  forallb is_continuation block = true ->
  forallb non_blank block = true ->
  next_test is_continuation post = false ->
  exists X b1 b2 Y,
    output_lines content = X ++ b1 :: item :: block ++ b2 :: Y
    /\ is_blank b1 = true /\ is_blank b2 = true.
Proof.
  intros E Hpre Hpost Hc Hi Hblock Hnb Hp.
  pose proof (is_list_item_non_blank _ Hi) as Hl.
  rewrite output_lines_run, E. rewrite E in Hc.
  apply at_cursor_mode in Hc. destruct Hc as [_ Hm].
  rewrite run_app, Hm. cbn [run].
  destruct (is_heading item) eqn:Hh;
    [apply is_heading_not_list_item in Hh; congruence|].
  destruct (is_fence item) eqn:Hf;
    [apply is_fence_not_list_item in Hf; congruence|].
  rewrite Hi. fold (list_tail (Some item) (block ++ post)).
  rewrite list_tail_spec.
  destruct (list_lines_block block post Hblock Hp) as [-> ->].
  rewrite app_assoc.
  set (A := run_upto Main None pre (item :: block ++ post)
            ++ blank_if (prev_test list_start_gap (prev_of None pre))).
  assert (HA : ends_blank A).
  { apply run_upto_ends_blank_list; trivial.
    destruct pre; [simpl in Hpre; lia|discriminate]. }
  destruct (run_after_heading_starts_blank post (prev_of (Some item) block))
    as (b2 & Z & -> & Hb2).
  { destruct post; [simpl in Hpost; lia|discriminate]. }
  rewrite collapse_app, (collapse_non_blank _ _ _ Hl), collapse_app.
  destruct (collapse_non_blank_lines block Hnb false) as [-> Hba].
  assert (Hst : collapse (blank_after false block) (b2 :: Z)
                = b2 :: collapse true Z).
  { cbn [collapse]. rewrite Hb2.
    destruct block; [reflexivity|]. rewrite Hba by discriminate. reflexivity. }
  rewrite Hst.
  destruct HA as (Q & b & HA & HQ).
  destruct (collapse_snoc_blank Q b HQ) as (X & b1 & EX & Hb1).
  rewrite <- HA in EX. rewrite EX, <- app_assoc. cbn [app].
  exists X, b1, b2, (collapse true Z). auto.
Qed.

Lemma list_isolated_witness :
  exists X b1 b2 Y,
    output_lines (doc ["Para"; "- item1"; "  more"; "- item2"; "More"]%string)
    = X ++ b1 :: lit "- item1" :: [lit "  more"; lit "- item2"] ++ b2 :: Y
    /\ is_blank b1 = true /\ is_blank b2 = true.
Proof.
  apply (list_isolated
           (doc ["Para"; "- item1"; "  more"; "- item2"; "More"]%string)
           [lit "Para"] [lit "  more"; lit "- item2"] [lit "More"]
           (lit "- item1"));
    [reflexivity|simpl; lia|simpl; lia|reflexivity|reflexivity|reflexivity
    |reflexivity|reflexivity].
Defined.

(** ** The program: one file path *)

Lemma str_eqb_refl (a : str) : str_eqb a a = true.
Proof. unfold str_eqb. destruct (list_eq_dec N.eq_dec a a); congruence. Qed.

Lemma str_eqb_neq (a b : str) : a <> b -> str_eqb a b = false.
Proof. unfold str_eqb. destruct (list_eq_dec N.eq_dec a b); congruence. Qed.

(** With one file path, a file that can be read and opened for writing is
    read once and then written once: it holds the formatted text
    afterwards, every other file is as it was, one line of confirmation
    is printed and the exit status is 0. *)
Theorem main_formats_file (prog filename content : str) (w : world) :
  files w filename = Some content ->
  writable w filename = true ->
  exit_status (fst (main [prog; filename] w)) = 0
  /\ files (snd (main [prog; filename] w)) filename
     = Some (fix_markdown_formatting content)
  /\ (forall q, q <> filename ->
                files (snd (main [prog; filename] w)) q = files w q)
  /\ stdout (snd (main [prog; filename] w))
     = stdout w ++ [lit "Fixed markdown formatting in " ++ filename]
  /\ file_ops (snd (main [prog; filename] w))
     = file_ops w ++ [OpenRead filename; OpenWrite filename].
Proof.
  intros Hr Hw.
  unfold main, bind, read_file, write_file, print.
  cbn [length Nat.eqb negb nth files writable stdout file_ops].
  rewrite Hr. cbn [files writable stdout file_ops]. rewrite Hw.
  cbn [fst snd exit_status files writable stdout file_ops].
  rewrite str_eqb_refl, <- app_assoc.
  repeat split. intros q Hq. now rewrite str_eqb_neq.
Qed.

Lemma main_formats_file_witness :
  let w := {| files := fun _ => Some (doc ["# Title:"; "Some text"]%string);
              writable := fun _ => true; stdout := []; file_ops := [] |} in
  let r := main [lit "fix_markdown.py"; lit "a.md"] w in
  exit_status (fst r) = 0
  /\ files (snd r) (lit "a.md")
     = Some (fix_markdown_formatting (doc ["# Title:"; "Some text"]%string))
  /\ (forall q, q <> lit "a.md" -> files (snd r) q = files w q)
  /\ stdout (snd r) = [] ++ [lit "Fixed markdown formatting in " ++ lit "a.md"]
  /\ file_ops (snd r) = [] ++ [OpenRead (lit "a.md"); OpenWrite (lit "a.md")].
Proof.
  intros w r.
  exact (main_formats_file (lit "fix_markdown.py") (lit "a.md")
           (doc ["# Title:"; "Some text"]%string) w eq_refl eq_refl).
Defined.

(** With one file path, a file that cannot be read ends the run at the
    first [open]: exit status 1, nothing printed, nothing opened for
    writing, every file as it was. *)
Theorem main_unreadable_file (prog filename : str) (w : world) :
  files w filename = None ->
  exit_status (fst (main [prog; filename] w)) = 1
  /\ stdout (snd (main [prog; filename] w)) = stdout w
  /\ files (snd (main [prog; filename] w)) = files w
  /\ file_ops (snd (main [prog; filename] w))
     = file_ops w ++ [OpenRead filename].
Proof.
  intros Hr.
  unfold main, bind, read_file.
  cbn [length Nat.eqb negb nth files writable stdout file_ops].
  rewrite Hr. repeat split.
Qed.

Lemma main_unreadable_file_witness :
  let w := {| files := fun _ => None; writable := fun _ => true;
              stdout := []; file_ops := [] |} in
  let r := main [lit "fix_markdown.py"; lit "missing.md"] w in
  exit_status (fst r) = 1
  /\ stdout (snd r) = []
  /\ files (snd r) = files w
  /\ file_ops (snd r) = [] ++ [OpenRead (lit "missing.md")].
Proof.
  intros w r.
  exact (main_unreadable_file (lit "fix_markdown.py") (lit "missing.md")
           w eq_refl).
Defined.

(** ** A heading and the line after it *)

Lemma emit_main_shape (prev : option str) (l : str) (rest : list str) :
  exists c tail, emit Main prev l rest = blank_if c ++ image Main l :: tail.
Proof.
  cbn [emit image]. destruct (is_heading l); [eauto|].
  destruct (is_fence l); [eauto|].
  destruct (is_list_item l); [eauto|]. now exists false, [].
Qed.

(** Between a heading that the main loop reads and a line after it that
    is not blank there is exactly one line in the output, an empty one,
    also when that line is a heading, a fence or a list item, which asks
    for a blank line before it as well. *)
Theorem heading_then_line (content : str) (pre rest : list str) (h n : str) :
  split_nl content = pre ++ h :: n :: rest ->
  at_cursor (split_nl content) (length pre) = true ->
  is_heading h = true ->
  non_blank n = true ->
  exists X Y,
    output_lines content
    = X ++ sub_colon h :: [] :: (if is_heading n then sub_colon n else n) :: Y.
Proof.
  intros E Hc Hh Hn.
  rewrite output_lines_run, E. rewrite E in Hc.
  apply at_cursor_mode in Hc. destruct Hc as [_ Hm].
  rewrite run_app, Hm, run_step. cbn [emit next_mode next_test].
  rewrite Hh, Hn, run_step.
  destruct (emit_main_shape (Some h) n rest) as (c & tail & ->).
  assert (Hi : non_blank (image Main n) = true) by now rewrite non_blank_image.
  rewrite <- !app_assoc. cbn [blank_if app].
  rewrite collapse_app, collapse_blank_if.
  rewrite collapse_non_blank
    by now apply is_heading_non_blank, is_heading_sub_colon.
  cbn [collapse]. change (is_blank []) with true. cbn [app].
  rewrite collapse_blank_if. cbn [negb orb]. rewrite andb_false_r.
  cbn [blank_if app]. rewrite (collapse_non_blank _ _ _ Hi).
  rewrite app_assoc. eexists _, _. reflexivity.
Qed.

Lemma heading_then_line_witness :
  exists X Y,
    output_lines (doc ["# One:"; "## Two:"; "text"]%string)
    = X ++ lit "# One" :: [] :: lit "## Two" :: Y.
Proof.
  exact (heading_then_line (doc ["# One:"; "## Two:"; "text"]%string)
           [] [lit "text"] (lit "# One:") (lit "## Two:")
           eq_refl eq_refl eq_refl eq_refl).
Defined.
